(** * AI Operator OS kernel services: a shallow embedding and its properties

    The definitions below follow [ai_operator_os.py]: every Python class
    becomes a record holding the instance attributes, every method a function
    that takes the object and returns its result paired with the object after
    the call.  Dictionaries keyed by strings are [gmap string], Python sets
    are [gset string], lists and deques are [list].  [datetime.now()] is not
    a function of the program state, so every method that stamps a record
    takes the stamp as the extra argument [now]. *)

From Stdlib Require Import ZArith QArith String Ascii.
From Stdlib Require Floats.
From stdpp Require Import base option list gmap strings sorting.
Import PrimFloat.PrimFloatNotations.

Local Open Scope string_scope.
Local Open Scope Z_scope.
Local Open Scope list_scope.
Local Open Scope stdpp_scope.

(** ** Python built-ins the services rely on *)

Module Py.

(** Exceptions a call can end with. *)
Inductive exn :=
| ValueError (msg : string)
| KeyError (key : string)
| IndexError (msg : string)
| Exception (msg : string).

(** Outcome of a call that may raise. *)
Inductive result (A : Type) :=
| Ok (a : A)
| Raise (e : exn).
#[global] Arguments Ok {A} a.
#[global] Arguments Raise {A} e.

Definition bind {A B} (r : result A) (k : A -> result B) : result B :=
match r with
| Ok a => k a
| Raise e => Raise e
end.

Section Sorted.
Context {A K : Type} (ltb : K -> K -> bool) (key : A -> K).

(** [sorted(l, key=key, reverse=True)] is stable: elements with equal keys
keep their order.  [x] stood before every element of [l], so it goes
in front of the first element whose key is not larger than its own. *)
Fixpoint insert_reverse (x : A) (l : list A) : list A :=
  match l with
  | [] => [x]
  | y :: ys =>
  if ltb (key x) (key y) then y :: insert_reverse x ys else x :: y :: ys
  end.

Fixpoint sorted_reverse (l : list A) : list A :=
  match l with
  | [] => []
  | x :: xs => insert_reverse x (sorted_reverse xs)
  end.
End Sorted.

(** [l[:stop]]: a negative [stop] counts from the end. *)
Definition slice_to {A} (stop : Z) (l : list A) : list A :=
take (Z.to_nat (if stop <? 0 then Z.max 0 (Z.of_nat (length l) + stop) else stop)) l.

(** Characters are code points below 256.  [str.isspace] there: TAB..CR,
  FS..US, SPACE, NEL and NBSP. *)
Definition isspace (c : ascii) : bool :=
let n := N_of_ascii c in
((9 <=? n) && (n <=? 13) || (28 <=? n) && (n <=? 32)
|| (n =? 133) || (n =? 160))%N.

Definition flush (word : string) : list string :=
match word with
| EmptyString => []
| _ => [word]
end.

(** The maximal runs of characters that are not separators; [word] is the
  run being read. *)
Fixpoint runs_from (sep : ascii -> bool) (word : string) (s : string) : list string :=
match s with
| EmptyString => flush word
| String c rest =>
    if sep c then flush word ++ runs_from sep EmptyString rest
    else runs_from sep (word +:+ String c EmptyString) rest
end.

(** [s.split()] *)
Definition split (s : string) : list string := runs_from isspace EmptyString s.

(** [s[:n]] for [n >= 0]. *)
Fixpoint prefix (n : nat) (s : string) : string :=
match n, s with
| S m, String c rest => String c (prefix m rest)
| _, _ => EmptyString
end.

(** [collections.deque(maxlen=n).append(x)]: the item is added on the right
  and, when the deque is then longer than [maxlen], one item is dropped on
  the left. *)
Definition deque_append {A} (maxlen : Z) (d : list A) (x : A) : list A :=
let d1 := d ++ [x] in
if maxlen <? Z.of_nat (length d1) then tail d1 else d1.

End Py.

(** [x ← c; k] runs [c] and stops at the first exception. *)
#[global] Instance result_ret : MRet Py.result := @Py.Ok.
#[global] Instance result_bind : MBind Py.result := λ A B k r, Py.bind r k.

(** ** Scheduler *)

Module Scheduler.
Section Payload.
(** The type of payloads and results, which the scheduler never inspects. *)
Context {Any : Type}.

(** The task dictionary; [completed_at] and [result] are the keys that
[mark_done] adds. *)
Record Task := mkTask {
  task_id : string;
  agent_name : string;
  payload : Any;
  priority : Z;
  submitted_at : string;
  status : string;
  completed_at : option string;
  result : option Any
}.

Record t := mk {
  policy : string;
  _queue : list Task;
  _completed : list Task
}.

Definition init (policy : string) : Py.result t :=
  if bool_decide (policy ∈ ["fifo"; "priority"; "round_robin"])
  then Py.Ok (mk policy [] [])
  else Py.Raise (Py.ValueError ("Unknown scheduling policy '" +:+ policy +:+ "'")).

Definition submit (self : t) (now task_id agent_name : string) (payload : Any)
  (priority : Z) : Task * t :=
  let task := mkTask task_id agent_name payload priority now "queued" None None in
  (task, mk (policy self) (_queue self ++ [task]) (_completed self)).

(** [popleft] raises on an empty deque. *)
Definition popleft (q : list Task) : Py.result (Task * list Task) :=
  match q with
  | [] => Py.Raise (Py.IndexError "pop from an empty deque")
  | task :: rest => Py.Ok (task, rest)
  end.

Definition next_task (self : t) : Py.result (option Task * t) :=
  match _queue self with
  | [] => Py.Ok (None, self)
  | _ :: _ =>
  let q :=
    if bool_decide (policy self = "priority")
    then Py.sorted_reverse Z.ltb priority (_queue self)
    else _queue self in
  '(task, rest) ← popleft q;
  Py.Ok (Some task, mk (policy self) rest (_completed self))
  end.

Definition mark_done (self : t) (now : string) (task : Task) (result : option Any)
  : Task * t :=
  let task1 := mkTask (task_id task) (agent_name task) (payload task) (priority task)
         (submitted_at task) "completed" (Some now) result in
  (task1, mk (policy self) (_queue self) (_completed self ++ [task1])).

Definition queue_length (self : t) : nat := length (_queue self).
Definition completed_tasks (self : t) : list Task := _completed self.

(** The calls a client makes on the queue. *)
Inductive Call :=
  | Submit (now task_id agent_name : string) (payload : Any) (priority : Z)
  | NextTask.

(** Runs the calls in order and collects what the [next_task] calls return. *)
Fixpoint run (self : t) (calls : list Call) : Py.result (list (option Task) * t) :=
  match calls with
  | [] => Py.Ok ([], self)
  | Submit now i a p n :: rest => run (submit self now i a p n).2 rest
  | NextTask :: rest =>
  '(o, self1) ← next_task self;
  '(os, self2) ← run self1 rest;
  Py.Ok (o :: os, self2)
  end.

(** *** The selection rules in the words of the specification

[pending] lists the tasks that were submitted and not yet returned, in
submission order. *)

Fixpoint highest_priority (p : Z) (pending : list Task) : Z :=
  match pending with
  | [] => p
  | u :: rest => highest_priority (Z.max p (priority u)) rest
  end.

(** Takes the earliest task that satisfies [P] out of [pending]. *)
Fixpoint take_first (P : Task -> bool) (pending : list Task) : option (Task * list Task) :=
  match pending with
  | [] => None
  | u :: rest =>
  if P u then Some (u, rest)
  else '(v, rest1) ← take_first P rest; Some (v, u :: rest1)
  end.

(** priority: the earliest submitted among the tasks of highest priority. *)
Definition select_priority (pending : list Task) : option (Task * list Task) :=
  match pending with
  | [] => None
  | u :: rest =>
  take_first (λ v, priority v =? highest_priority (priority u) rest) pending
  end.

(** fifo: the earliest submitted task. *)
Definition select_fifo (pending : list Task) : option (Task * list Task) :=
  match pending with
  | [] => None
  | u :: rest => Some (u, rest)
  end.

Fixpoint expected (select : list Task -> option (Task * list Task))
  (pending : list Task) (calls : list Call) : list (option Task) :=
  match calls with
  | [] => []
  | Submit now i a p n :: rest =>
  expected select (pending ++ [mkTask i a p n now "queued" None None]) rest
  | NextTask :: rest =>
  match select pending with
  | Some (u, pending1) => Some u :: expected select pending1 rest
  | None => None :: expected select pending rest
  end
  end.
End Payload.
#[global] Arguments Task : clear implicits.
#[global] Arguments t : clear implicits.
#[global] Arguments Call : clear implicits.
End Scheduler.

(** ** ContextManager *)

Module ContextManager.

Record Entry := mkEntry {
role : string;
content : string;
timestamp : string
}.

Record t := mk {
window_size : Z;
_sessions : gmap string (list Entry)
}.

(** [__init__]: no deque exists yet, so no value of [window_size] is
  rejected here. *)
Definition init (window_size : Z) : t := mk window_size ∅.

(** [self._sessions[session_id]] on the [defaultdict]: a missing session is
  created with [deque(maxlen=self.window_size)], which raises for a
  negative [maxlen]; nothing is stored in that case. *)
Definition session (self : t) (session_id : string) : Py.result (list Entry * t) :=
match _sessions self !! session_id with
| Some d => Py.Ok (d, self)
| None =>
  if window_size self <? 0
  then Py.Raise (Py.ValueError "maxlen must be non-negative")
  else Py.Ok ([], mk (window_size self) (<[session_id := []]> (_sessions self)))
end.

Definition push (self : t) (now session_id role content : string) : Py.result t :=
'(d, self1) ← session self session_id;
Py.Ok (mk (window_size self1)
        (<[session_id := Py.deque_append (window_size self1) d
                           (mkEntry role content now)]> (_sessions self1))).

Definition get_context (self : t) (session_id : string) : Py.result (list Entry * t) :=
session self session_id.

Definition clear (self : t) (session_id : string) : Py.result t :=
'(_, self1) ← session self session_id;
Py.Ok (mk (window_size self1) (<[session_id := []]> (_sessions self1))).

(** The sessions holding at least one message (listed in the order of the
  map, not in the order of creation). *)
Definition active_sessions (self : t) : list string :=
(map_to_list (filter (λ kv, kv.2 ≠ []) (_sessions self))).*1.

(** One [push] call: time stamp, session, role and content. *)
Record Push := mkPush {
p_now : string;
p_session : string;
p_role : string;
p_content : string
}.

Fixpoint push_all (self : t) (calls : list Push) : Py.result t :=
match calls with
| [] => Py.Ok self
| c :: rest =>
  self1 ← push self (p_now c) (p_session c) (p_role c) (p_content c);
  push_all self1 rest
end.

(** The entries pushed to one session, oldest first. *)
Definition pushed_to (session_id : string) (calls : list Push) : list Entry :=
map (λ c, mkEntry (p_role c) (p_content c) (p_now c))
  (filter (λ c, p_session c = session_id) calls).

(** The last [n] items of a list. *)
Definition last_n {A} (n : nat) (l : list A) : list A := drop (length l - n) l.

End ContextManager.

(** ** ToolAccessManager *)

Module ToolAccessManager.

(** One entry of [_audit_log]. *)
Record AuditEntry := mkAudit {
timestamp : string;
principal : string;
tool : string;
role : option string;
allowed : bool
}.

Record t := mk {
_roles : gmap string (gset string);     (* role -> tools *)
_principals : gmap string string;       (* principal -> role *)
_audit_log : list AuditEntry
}.

(** [__init__] *)
Definition init : t := mk ∅ ∅ [].

(** [self._roles[role].update(tools)]: [_roles] is a [defaultdict(set)], so
  the subscript creates the empty set for an unknown role. *)
Definition define_role (self : t) (role : string) (tools : list string) : t :=
mk (<[role := default ∅ (_roles self !! role) ∪ list_to_set tools]> (_roles self))
   (_principals self) (_audit_log self).

Definition assign_role (self : t) (principal role : string) : t :=
mk (_roles self) (<[principal := role]> (_principals self)) (_audit_log self).

(** [tool in self._roles.get(role, set())]: [.get] never creates a key. *)
Definition role_grants (self : t) (role tool : string) : bool :=
bool_decide (tool ∈ default (∅ : gset string) (_roles self !! role)).

Definition check_access (self : t) (now principal tool : string) : bool * t :=
let role := _principals self !! principal in
let allowed :=
  match role with
  | Some r => role_grants self r tool
  | None => false
  end in
(allowed,
 mk (_roles self) (_principals self)
   (_audit_log self ++ [mkAudit now principal tool role allowed])).

(** Order of [sorted] on [str]: lexicographic on code points. *)
Definition str_le (a b : string) : Prop := String.leb a b = true.

#[global] Instance str_le_dec a b : Decision (str_le a b).
Proof. unfold str_le. apply _. Defined.

(** [sorted(self._roles.get(role, set()))]; the role of an unassigned
  principal is [None], which is not a key of [_roles]. *)
Definition permitted_tools (self : t) (principal : string) : list string :=
match _principals self !! principal with
| Some r => merge_sort str_le (elements (default (∅ : gset string) (_roles self !! r)))
| None => merge_sort str_le (elements (∅ : gset string))
end.

Definition audit_log (self : t) : list AuditEntry := _audit_log self.

(** A run of access checks, each with its own time stamp. *)
Fixpoint check_all (self : t) (calls : list (string * string * string)) : list bool * t :=
match calls with
| [] => ([], self)
| (now, p, tl) :: rest =>
  let '(b, self1) := check_access self now p tl in
  let '(bs, self2) := check_all self1 rest in
  (b :: bs, self2)
end.

End ToolAccessManager.

(** ** EvaluationEngine *)

Module EvaluationEngine.

Definition EVALUATION_METRICS : list string :=
["hallucination_frequency"; "context_relevance"; "correctness"].

(** An evaluation record; [scores] keeps the order of the dictionary, a null
  score is [None].  Scores are read as exact rationals. *)
Record Evaluation := mkEvaluation {
agent : string;
timestamp : string;
scores : list (string * option Q)
}.

Record t := mk {
_records : gmap string (list Evaluation)
}.

Definition init : t := mk ∅.

Section Evaluate.
(** The two scoring heuristics, which [aggregate] does not depend on. *)
Variable _score_hallucination : string -> Q.
Variable _score_relevance : string -> string -> Q.

(** [1.0 if correct else (0.0 if correct is False else None)] *)
Definition correctness_score (correct : option bool) : option Q :=
  match correct with
  | Some true => Some 1%Q
  | Some false => Some 0%Q
  | None => None
  end.

Definition evaluate (self : t) (now agent_name prompt response : string)
  (correct : option bool) : Evaluation * t :=
  let scores :=
[("hallucination_frequency", Some (_score_hallucination response));
 ("context_relevance", Some (_score_relevance prompt response));
 ("correctness", correctness_score correct)] in
  let record := mkEvaluation agent_name now scores in
  (record,
   mk (<[agent_name := default [] (_records self !! agent_name) ++ [record]]>
 (_records self))).
End Evaluate.

(** [agg[metric].append(val)] for the non-null scores of one record; [agg] is
  a [defaultdict(list)], so a metric gets a key with its first value. *)
Definition collect (agg : gmap string (list Q)) (scores : list (string * option Q))
: gmap string (list Q) :=
foldl (λ agg mv,
       match mv.2 with
       | Some val => <[mv.1 := default [] (agg !! mv.1) ++ [val]]> agg
       | None => agg
       end) agg scores.

Definition collect_all (records : list Evaluation) : gmap string (list Q) :=
foldl (λ agg r, collect agg (scores r)) ∅ records.

(** [sum(vals) / len(vals) if vals else None] *)
Definition mean (vals : list Q) : option Q :=
match vals with
| [] => None
| _ => Some (foldl Qplus 0%Q vals / inject_Z (Z.of_nat (length vals)))%Q
end.

(** The result maps a metric to a number or to null ([Some None]); a metric
  that is not a key of the result looks up as [None]. *)
Definition aggregate (self : t) (agent_name : string) : gmap string (option Q) :=
match default [] (_records self !! agent_name) with
| [] => list_to_map (map (λ m, (m, None)) EVALUATION_METRICS)
| records => mean <$> collect_all records
end.

Definition report (self : t) : gmap string (gmap string (option Q)) :=
map_imap (λ name _, Some (aggregate self name)) (_records self).

End EvaluationEngine.

(** ** LLMCore *)

Module LLMCore.
Section Gateway.
(** [Options] stands for the keyword arguments handed on to a handler;
[World] is whatever a handler acts on outside the gateway (a remote
backend, a call counter), so that calling a handler twice differs from
calling it once. *)
Context {Options World : Type}.

(** [handler(prompt, **kwargs) -> str]; it may raise. *)
Definition Handler : Type := string -> Options -> World -> Py.result string * World.

Record t := mk {
  _providers : gmap string Handler;
  _default_provider : option string
}.

Record Completion := mkCompletion {
  response : string;
  provider : string;
  prompt_tokens : nat;
  completion_tokens : nat
}.

Definition init : t := mk ∅ None.

Definition register_provider (self : t) (name : string) (handler : Handler)
  (set_default : bool) : t :=
  mk (<[name := handler]> (_providers self))
 (if set_default || bool_decide (_default_provider self = None)
  then Some name else _default_provider self).

(** Truth value of an optional name: [None] and the empty string are false. *)
Definition truthy (name : option string) : bool :=
  match name with
  | Some (String _ _) => true
  | _ => false
  end.

(** [provider or self._default_provider] *)
Definition chosen_name (self : t) (provider : option string) : option string :=
  if truthy provider then provider else _default_provider self.

(** [chosen and chosen in self._providers], with the handler found. *)
Definition resolve (self : t) (provider : option string) : option (string * Handler) :=
  match chosen_name self provider with
  | Some (String c rest) =>
  match _providers self !! String c rest with
  | Some handler => Some (String c rest, handler)
  | None => None
  end
  | _ => None
  end.

Definition mock_response (prompt : string) : string :=
  "[mock response to: " +:+ Py.prefix 80 prompt
  +:+ (if (80 <? String.length prompt)%nat then "..." else "") +:+ "]".

Definition completion (response_text chosen prompt : string) : Completion :=
  mkCompletion response_text chosen
(length (Py.split prompt)) (length (Py.split response_text)).

(** [complete] assigns to no attribute of the gateway; the gateway after the
call is returned with the result to make that visible. *)
Definition complete (self : t) (prompt : string) (provider : option string)
  (kwargs : Options) (w : World) : Py.result Completion * t * World :=
  match resolve self provider with
  | Some (chosen, handler) =>
  let '(outcome, w1) := handler prompt kwargs w in
  (response_text ← outcome; Py.Ok (completion response_text chosen prompt),
   self, w1)
  | None =>
  (Py.Ok (completion (mock_response prompt) "mock" prompt), self, w)
  end.

End Gateway.
#[global] Arguments t : clear implicits.
#[global] Arguments Handler : clear implicits.
End LLMCore.

(** ** VectorStore

    A Python float is an IEEE 754 binary64 number, [PrimFloat.float]; [+],
    [*], [/] and the comparisons are the operations of the format.  Two
    operations are not fixed by it.  [x ** 0.5] is the [pow] of the C
    library, which returns the correctly rounded root for many arguments and
    a neighbour of it for others.  [sum] adds its items from the left into a
    double, and newer interpreters carry a correction for the rounding
    errors along.  The store takes the two operations as the parameter
    [Arith]. *)

Module VectorStore.

(** [\w] on code points below 256: ASCII letters, digits, the underscore and
  the Latin-1 letters and numeric signs. *)
Definition isword (c : ascii) : bool :=
let n := N_of_ascii c in
((48 <=? n) && (n <=? 57) || (65 <=? n) && (n <=? 90) || (n =? 95)
|| (97 <=? n) && (n <=? 122)
|| (n =? 170) || (n =? 178) || (n =? 179) || (n =? 181) || (n =? 185) || (n =? 186)
|| (188 <=? n) && (n <=? 190)
|| (192 <=? n) && (n <=? 214) || (216 <=? n) && (n <=? 246) || (248 <=? n))%N.

(** [str.lower] on code points below 256. *)
Definition lower_char (c : ascii) : ascii :=
let n := N_of_ascii c in
if ((65 <=? n) && (n <=? 90) || (192 <=? n) && (n <=? 214)
  || (216 <=? n) && (n <=? 222))%N
then ascii_of_N (n + 32) else c.

Fixpoint lower (s : string) : string :=
match s with
| EmptyString => EmptyString
| String c rest => String (lower_char c) (lower rest)
end.

(** [re.findall(r'\b\w+\b', text.lower())]: the maximal runs of word
  characters. *)
Definition tokens (text : string) : list string :=
Py.runs_from (λ c, negb (isword c)) EmptyString (lower text).

Abbreviation float := PrimFloat.float.


(** What the interpreter and the C library decide: [x ** 0.5] and [sum], the
  latter with the start value 0 for no items. *)
Record Arith := {
  pow_half : float -> float;
  sum : list float -> float;
  sum_nil : sum [] = PrimFloat.zero
}.

(** The correctly rounded root and the sum without correction. *)
Definition plain : Arith :=
{| pow_half := PrimFloat.sqrt;
   sum := foldl PrimFloat.add PrimFloat.zero;
   sum_nil := eq_refl |}.

(** A [Dict[str, float]], in insertion order. *)
Abbreviation Vector := (list (string * float)).

(** [a.get(k, d)] *)
Fixpoint get (a : Vector) (k : string) (d : float) : float :=
match a with
| [] => d
| (k1, v) :: rest => if decide (k1 = k) then v else get rest k d
end.

(** [counts[t] += 1.0] on a [defaultdict(float)] *)
Fixpoint bump (counts : Vector) (t : string) : Vector :=
match counts with
| [] => [(t, (PrimFloat.zero + PrimFloat.one)%float)]
| (k, v) :: rest =>
  if decide (k = t) then (k, (v + PrimFloat.one)%float) :: rest else (k, v) :: bump rest t
end.

(** [x or 1.0]: a float counts as false when it equals zero; NaN is true. *)
Definition or_one (x : float) : float :=
if (x =? PrimFloat.zero)%float then PrimFloat.one else x.

Definition _vectorise (arith : Arith) (text : string) : Vector :=
let counts := foldl bump [] (tokens text) in
let norm := or_one (pow_half arith (sum arith (map (λ kv, (kv.2 * kv.2)%float) counts))) in
map (λ kv, (kv.1, (kv.2 / norm)%float)) counts.

Definition _cosine (arith : Arith) (a b : Vector) : float :=
sum arith (map (λ kv, (get a kv.1 PrimFloat.zero * kv.2)%float) b).

(** [d[k] = v] on a dictionary kept in insertion order: an existing key keeps
  its place. *)
Fixpoint dict_set {V} (d : list (string * V)) (k : string) (v : V) : list (string * V) :=
match d with
| [] => [(k, v)]
| (k1, v1) :: rest =>
  if decide (k1 = k) then (k, v) :: rest else (k1, v1) :: dict_set rest k v
end.

Fixpoint dict_del {V} (d : list (string * V)) (k : string) : list (string * V) :=
match d with
| [] => []
| (k1, v1) :: rest => if decide (k1 = k) then rest else (k1, v1) :: dict_del rest k
end.

Section Store.
(** The type of metadata values. *)
Context {Any : Type} (arith : Arith).

(** The tuple stored for a document. *)
Record Doc := mkDoc {
  doc_text : string;
  doc_vec : Vector;
  doc_metadata : gmap string Any
}.

Record t := mk {
  _records : list (string * Doc)
}.

Record Hit := mkHit {
  id : string;
  text : string;
  score : float;
  metadata : gmap string Any
}.

Definition init : t := mk [].

Definition upsert (self : t) (doc_id text : string) (metadata : option (gmap string Any)) : t :=
  mk (dict_set (_records self) doc_id (mkDoc text (_vectorise arith text) (default ∅ metadata))).

(** The list [scored] of [search], before it is sorted. *)
Definition scored (self : t) (query : string) : list Hit :=
  map (λ r, mkHit r.1 (doc_text r.2) (_cosine arith (_vectorise arith query) (doc_vec r.2))
          (doc_metadata r.2))
(_records self).

Definition search (self : t) (query : string) (top_k : Z) : list Hit :=
  Py.slice_to top_k (Py.sorted_reverse PrimFloat.ltb score (scored self query)).

Definition delete (self : t) (doc_id : string) : bool * t :=
  (bool_decide (doc_id ∈ (_records self).*1), mk (dict_del (_records self) doc_id)).

(** The calls that change the store. *)
Inductive Call :=
  | Upsert (doc_id text : string) (metadata : option (gmap string Any))
  | Delete (doc_id : string).

Definition step (self : t) (c : Call) : t :=
  match c with
  | Upsert doc_id text metadata => upsert self doc_id text metadata
  | Delete doc_id => (delete self doc_id).2
  end.

End Store.
#[global] Arguments t : clear implicits.
#[global] Arguments Call : clear implicits.
#[global] Arguments Doc : clear implicits.
#[global] Arguments Hit : clear implicits.
End VectorStore.

(** ** RelationalStore *)

Module RelationalStore.
Section Store.
(** The type of field values. *)
Context {Any : Type}.

(** A record is a dictionary from field names to values. *)
Abbreviation Row := (gmap string Any).

Record t := mk {
  _tables : gmap string (gmap string Row)
}.

Definition init : t := mk ∅.

(** [self._tables[table]] on the [defaultdict(dict)]: an unknown table is
created empty. *)
Definition table (self : t) (name : string) : gmap string Row * t :=
  match _tables self !! name with
  | Some rows => (rows, self)
  | None => (∅, mk (<[name := ∅]> (_tables self)))
  end.

(** [dict(data)] is a copy with the same keys and values. *)
Definition insert (self : t) (name record_id : string) (data : Row) : t :=
  let '(rows, self1) := table self name in
  mk (<[name := <[record_id := data]> rows]> (_tables self1)).

Definition get (self : t) (name record_id : string) : option Row * t :=
  let '(rows, self1) := table self name in
  (rows !! record_id, self1).

Definition delete (self : t) (name record_id : string) : bool * t :=
  let '(rows, self1) := table self name in
  (bool_decide (is_Some (rows !! record_id)),
   mk (<[name := base.delete record_id rows]> (_tables self1))).

End Store.
#[global] Arguments t : clear implicits.
End RelationalStore.

(** ** MemoryManager *)

Module MemoryManager.
Section Memory.
Context {Any : Type}.
(** How a string counts as a value. *)
Variable str : string -> Any.
(** The float arithmetic of the vector store. *)
Variable arith : VectorStore.Arith.

Abbreviation Row := (gmap string Any).

(** [_data] is the data layer the manager shares with its other users; its
relational and vector stores are kept here. *)
Record t := mk {
  _data_relational : RelationalStore.t Any;
  _data_vector : VectorStore.t Any;
  _short_term : gmap string (gmap string Any)
}.

Definition init : t := mk RelationalStore.init VectorStore.init ∅.

Definition remember_short (self : t) (session_id key : string) (value : Any) : t :=
  mk (_data_relational self) (_data_vector self)
 (<[session_id := <[key := value]> (default ∅ (_short_term self !! session_id))]>
    (_short_term self)).

Definition recall_short (self : t) (session_id key : string) (default_ : Any) : Any * t :=
  let session := default ∅ (_short_term self !! session_id) in
  (default default_ (session !! key),
   mk (_data_relational self) (_data_vector self)
  (<[session_id := session]> (_short_term self))).

Definition forget_short (self : t) (session_id : string) : t :=
  mk (_data_relational self) (_data_vector self)
 (base.delete session_id (_short_term self)).

(** [f'{namespace}::{key}'] *)
Definition composite (namespace key : string) : string := namespace +:+ "::" +:+ key.

Definition remember_long (self : t) (now namespace key : string) (value : Any) : t :=
  mk (RelationalStore.insert (_data_relational self) "long_term_memory"
    (composite namespace key)
    (<["namespace" := str namespace]>
       (<["key" := str key]>
          (<["value" := value]> (<["updated_at" := str now]> ∅)))))
 (_data_vector self) (_short_term self).

(** [record['value'] if record else default]: an empty record is false, a
record without the key raises. *)
Definition recall_long (self : t) (namespace key : string) (default_ : Any)
  : Py.result Any * t :=
  let '(record, relational) :=
RelationalStore.get (_data_relational self) "long_term_memory"
  (composite namespace key) in
  (match record with
   | Some r =>
   if bool_decide (r = ∅ :> Row) then Py.Ok default_
   else match r !! "value" with
        | Some v => Py.Ok v
        | None => Py.Raise (Py.KeyError "value")
        end
   | None => Py.Ok default_
   end,
   mk relational (_data_vector self) (_short_term self)).

Definition search_long (self : t) (query : string) (top_k : Z) : list (VectorStore.Hit Any) :=
  VectorStore.search arith (_data_vector self) query top_k.

Definition index_memory (self : t) (doc_id text : string)
  (metadata : option (gmap string Any)) : t :=
  mk (_data_relational self) (VectorStore.upsert arith (_data_vector self) doc_id text metadata)
 (_short_term self).

(** The calls that can come between a write and a read of long-term memory:
the manager's own methods and direct use of the shared relational store. *)
Inductive Call :=
  | RememberShort (session_id key : string) (value : Any)
  | RecallShort (session_id key : string) (default_ : Any)
  | ForgetShort (session_id : string)
  | RememberLong (now namespace key : string) (value : Any)
  | RecallLong (namespace key : string) (default_ : Any)
  | IndexMemory (doc_id text : string) (metadata : option (gmap string Any))
  | Insert (name record_id : string) (data : Row)
  | Get (name record_id : string)
  | Delete (name record_id : string).

Definition step (self : t) (c : Call) : t :=
  match c with
  | RememberShort s k v => remember_short self s k v
  | RecallShort s k d => (recall_short self s k d).2
  | ForgetShort s => forget_short self s
  | RememberLong now ns k v => remember_long self now ns k v
  | RecallLong ns k d => (recall_long self ns k d).2
  | IndexMemory i x m => index_memory self i x m
  | Insert n i data =>
  mk (RelationalStore.insert (_data_relational self) n i data)
     (_data_vector self) (_short_term self)
  | Get n i =>
  mk (RelationalStore.get (_data_relational self) n i).2
     (_data_vector self) (_short_term self)
  | Delete n i =>
  mk (RelationalStore.delete (_data_relational self) n i).2
     (_data_vector self) (_short_term self)
  end.

(** The call writes the long-term record stored under [composite_key]. *)
Definition writes (composite_key : string) (c : Call) : Prop :=
  match c with
  | RememberLong _ ns k _ => composite ns k = composite_key
  | Insert n i _ | Delete n i => n = "long_term_memory" ∧ i = composite_key
  | _ => False
  end.

End Memory.
#[global] Arguments t : clear implicits.
#[global] Arguments Call : clear implicits.
End MemoryManager.

(** ** FileStore *)

Module FileStore.

(** [_files] in insertion order; a file's content is a byte string. *)
Record t := mk {
_files : list (string * string)
}.

Definition init : t := mk [].

(** [d.get(k)] on a dictionary kept in insertion order. *)
Fixpoint dict_get {V} (d : list (string * V)) (k : string) : option V :=
match d with
| [] => None
| (k1, v1) :: rest => if decide (k1 = k) then Some v1 else dict_get rest k
end.

Definition write (self : t) (path content : string) : t :=
mk (VectorStore.dict_set (_files self) path content).

Definition read (self : t) (path : string) : option string :=
dict_get (_files self) path.

(** [self._files.pop(path, None) is not None] *)
Definition delete (self : t) (path : string) : bool * t :=
(bool_decide (is_Some (dict_get (_files self) path)),
 mk (VectorStore.dict_del (_files self) path)).

(** [[p for p in self._files if p.startswith(prefix)]] *)
Definition list_paths (self : t) (prefix : string) : list string :=
filter (λ p, String.prefix prefix p = true) (_files self).*1.

(** The calls that change the store. *)
Inductive Call :=
| Write (path content : string)
| Delete (path : string).

Definition step (self : t) (c : Call) : t :=
match c with
| Write path content => write self path content
| Delete path => (delete self path).2
end.

End FileStore.

(** ** DataLayer *)

Module DataLayer.

Definition DEPLOYMENT_MODES : list string :=
["local"; "remote_kernel"; "personal_remote"; "hybrid"].

Section Layer.
Context {Any : Type}.

Record t := mk {
  deployment_mode : string;
  relational : RelationalStore.t Any;
  vector : VectorStore.t Any;
  files : FileStore.t
}.

Definition init (deployment_mode : string) : Py.result t :=
  if bool_decide (deployment_mode ∈ DEPLOYMENT_MODES)
  then Py.Ok (mk deployment_mode RelationalStore.init VectorStore.init FileStore.init)
  else Py.Raise (Py.ValueError
     ("deployment_mode must be one of "
      +:+ "('local', 'remote_kernel', 'personal_remote', 'hybrid')"
      +:+ ", got '" +:+ deployment_mode +:+ "'")).

(** The table of [compute_resources]: primary and secondary resource. *)
Definition resources : list (string * (string * option string)) :=
  [("local", ("local CPU/GPU", None));
   ("remote_kernel", ("local CPU/GPU", Some "remote kernel server"));
   ("personal_remote", ("personal cloud VM", Some "local CPU"));
   ("hybrid", ("local CPU/GPU", Some "cloud compute"))].

(** [resources[self.deployment_mode]], which raises on a missing key. *)
Definition compute_resources (self : t) : Py.result (string * option string) :=
  match FileStore.dict_get resources (deployment_mode self) with
  | Some r => Py.Ok r
  | None => Py.Raise (Py.KeyError (deployment_mode self))
  end.

End Layer.
#[global] Arguments t : clear implicits.
End DataLayer.

(** ** The scoring heuristics of EvaluationEngine

    The quotient of two counts is read as an exact rational. *)

Module Scoring.

Definition _UNCERTAINTY_TOKENS : list string :=
["maybe"; "perhaps"; "possibly"; "might"; "could"; "unsure"; "unclear";
 "probably"; "apparently"; "seemingly"; "i think"; "i believe"; "not sure";
 "hallucinate"; "fabricate"; "made up"; "uncertain"].

(** [tok in s] on strings. *)
Fixpoint contains (tok s : string) : bool :=
String.prefix tok s
|| match s with
   | EmptyString => false
   | String _ rest => contains tok rest
   end.

(** The separators of [[.!?]+]. *)
Definition is_stop (c : ascii) : bool :=
let n := N_of_ascii c in ((n =? 46) || (n =? 33) || (n =? 63))%N.

(** [re.split(r'[.!?]+', s)]: the pieces between the maximal runs of
  separators, empty pieces at both ends included; [in_run] tells that the
  previous character was a separator, [piece] is the piece being read. *)
Fixpoint split_from (in_run : bool) (piece : string) (s : string) : list string :=
match s with
| EmptyString => [piece]
| String c rest =>
    if is_stop c
    then if in_run then split_from true EmptyString rest
         else piece :: split_from true EmptyString rest
    else split_from false (piece +:+ String c EmptyString) rest
end.

Definition sentences_of (text : string) : list string :=
split_from false EmptyString (VectorStore.lower text).

Definition uncertain (s : string) : bool :=
existsb (λ tok, contains tok s) _UNCERTAINTY_TOKENS.

Definition ratio (n d : nat) : Q := (inject_Z (Z.of_nat n) / inject_Z (Z.of_nat d))%Q.

Definition _score_hallucination (text : string) : Q :=
match sentences_of text with
| [] => 0%Q
| sentences => ratio (length (filter (λ s, uncertain s = true) sentences))
                     (length sentences)
end.

Definition _score_relevance (prompt response : string) : Q :=
let p_tokens : gset string := list_to_set (VectorStore.tokens prompt) in
let r_tokens : gset string := list_to_set (VectorStore.tokens response) in
if bool_decide (p_tokens = ∅) && bool_decide (r_tokens = ∅) then 1%Q
else if bool_decide (p_tokens = ∅) || bool_decide (r_tokens = ∅) then 0%Q
else ratio (size (p_tokens ∩ r_tokens)) (size (p_tokens ∪ r_tokens)).

(** [EvaluationEngine.evaluate] with its own heuristics. *)
Definition evaluate := EvaluationEngine.evaluate _score_hallucination _score_relevance.

End Scoring.

(** ** KernelLayer *)

Module KernelLayer.
Section Kernel.
Context {Any Options World : Type}.

Record t := mk {
  scheduler : Scheduler.t Any;
  context : ContextManager.t;
  memory : MemoryManager.t Any;
  llm : LLMCore.t Options World;
  access : ToolAccessManager.t;
  evaluation : EvaluationEngine.t
}.

(** The four roles defined by [__init__]. *)
Definition seed_roles (access : ToolAccessManager.t) : ToolAccessManager.t :=
  let access1 := ToolAccessManager.define_role access "admin"
["policy_analyze"; "batch_analyze"; "vector_search";
 "file_read"; "file_write"; "llm_complete"; "workflow_run"] in
  let access2 := ToolAccessManager.define_role access1 "researcher"
["policy_analyze"; "batch_analyze"; "vector_search"; "llm_complete"] in
  let access3 := ToolAccessManager.define_role access2 "operator"
["policy_analyze"; "llm_complete"; "workflow_run"] in
  ToolAccessManager.define_role access3 "read_only" ["policy_analyze"].

(** [memory] is the manager built on the data layer handed in. *)
Definition init (memory : MemoryManager.t Any) (scheduler_policy : string)
(context_window : Z) : Py.result t :=
  scheduler ← Scheduler.init scheduler_policy;
  Py.Ok (mk scheduler (ContextManager.init context_window) memory LLMCore.init
       (seed_roles ToolAccessManager.init) EvaluationEngine.init).

Definition with_access (k : t) (access : ToolAccessManager.t) : t :=
  mk (scheduler k) (context k) (memory k) (llm k) access (evaluation k).

Definition with_context (k : t) (context : ContextManager.t) : t :=
  mk (scheduler k) context (memory k) (llm k) (access k) (evaluation k).

Definition with_evaluation (k : t) (evaluation : EvaluationEngine.t) : t :=
  mk (scheduler k) (context k) (memory k) (llm k) (access k) evaluation.

End Kernel.
#[global] Arguments t : clear implicits.
End KernelLayer.

(** ** Agent

    The base class: [run] with the [_handle] that asks the LLM core.  The
    kernel is the object shared by all agents; [run] returns it as the call
    left it, also when the call ends with an exception. *)

Module Agent.
Section Agents.
Context {Any Options World : Type}.

(** [session_id] is the UUID drawn by [__init__]; [required_tool] is what
[_required_tool] returns for the class of the agent. *)
Record t := mk {
  name : string;
  session_id : string;
  required_tool : string
}.

(** What [run] returns: the denial, or the result of [_handle]. *)
Inductive Outcome :=
| Denied (agent error : string)
| Handled (agent response provider : string).

(** The time stamps that one [run] takes: for the access check, the two
context entries and the evaluation record. *)
Record Stamps := mkStamps {
  at_check : string;
  at_user : string;
  at_assistant : string;
  at_evaluate : string
}.

(** The keyword arguments of [run] go to [LLMCore.complete], which takes
[provider] out of them. *)
Definition _handle (self : t) (k : KernelLayer.t Any Options World) (prompt : string)
(provider : option string) (kwargs : Options) (w : World)
: Py.result (string * string) * World :=
  let '(result, _, w1) := LLMCore.complete (KernelLayer.llm k) prompt provider kwargs w in
  (completion ← result;
   Py.Ok (LLMCore.response completion, LLMCore.provider completion), w1).

Definition run (self : t) (k : KernelLayer.t Any Options World) (now : Stamps)
(prompt : string) (provider : option string) (kwargs : Options) (w : World)
: Py.result Outcome * KernelLayer.t Any Options World * World :=
  let tool := required_tool self in
  let '(allowed, access1) :=
ToolAccessManager.check_access (KernelLayer.access k) (at_check now) (name self) tool in
  let k1 := KernelLayer.with_access k access1 in
  if negb allowed
  then (Py.Ok (Denied (name self)
             ("Access denied: '" +:+ name self +:+ "' cannot use tool '"
              +:+ tool +:+ "'")), k1, w)
  else
match ContextManager.push (KernelLayer.context k1) (at_user now) (session_id self)
        "user" prompt with
| Py.Raise e => (Py.Raise e, k1, w)
| Py.Ok context1 =>
    let k2 := KernelLayer.with_context k1 context1 in
    match _handle self k2 prompt provider kwargs w with
    | (Py.Raise e, w1) => (Py.Raise e, k2, w1)
    | (Py.Ok (response_text, provider_name), w1) =>
        match ContextManager.push (KernelLayer.context k2) (at_assistant now)
                (session_id self) "assistant" response_text with
        | Py.Raise e => (Py.Raise e, k2, w1)
        | Py.Ok context2 =>
            let k3 := KernelLayer.with_context k2 context2 in
            let '(_, evaluation1) :=
              Scoring.evaluate (KernelLayer.evaluation k3) (at_evaluate now)
                (name self) prompt response_text None in
            (Py.Ok (Handled (name self) response_text provider_name),
             KernelLayer.with_evaluation k3 evaluation1, w1)
        end
    end
end.

Definition context_window (self : t) (k : KernelLayer.t Any Options World)
: Py.result (list ContextManager.Entry * ContextManager.t) :=
  ContextManager.get_context (KernelLayer.context k) (session_id self).

End Agents.
#[global] Arguments Outcome : clear implicits.
End Agent.

(** * Properties *)

(** ** The built-ins on the inputs of the test suite *)

Example split_words : Py.split "  Hello,   world! " = ["Hello,"; "world!"].
Proof. reflexivity. Qed.

Example tokens_words :
  VectorStore.tokens "Privacy-policy: GDPR_2018 (EU)!" = ["privacy"; "policy"; "gdpr_2018"; "eu"].
Proof. reflexivity. Qed.

Example tokens_none : VectorStore.tokens "?! ... --" = [].
Proof. reflexivity. Qed.

Example vectorise_repeated :
  VectorStore._vectorise VectorStore.plain "Data, data!" = [("data", PrimFloat.one)].
Proof. reflexivity. Qed.

Example cosine_no_common_token :
  VectorStore._cosine VectorStore.plain
    (VectorStore._vectorise VectorStore.plain "privacy policy")
    (VectorStore._vectorise VectorStore.plain "data protection")
  = PrimFloat.zero.
Proof. reflexivity. Qed.

Example mock_short :
  LLMCore.mock_response "Hello, world!" = "[mock response to: Hello, world!]".
Proof. reflexivity. Qed.

Example sorted_reverse_stable :
  Py.sorted_reverse Z.ltb snd [("a", 1); ("b", 10); ("c", 5); ("d", 10); ("e", 1)]
  = [("b", 10); ("d", 10); ("c", 5); ("a", 1); ("e", 1)].
Proof. reflexivity. Qed.

Example deque_append_full : Py.deque_append 3 [1; 2; 3] 4 = [2; 3; 4].
Proof. reflexivity. Qed.

Example deque_append_zero : Py.deque_append 0 ([] : list Z) 4 = [].
Proof. reflexivity. Qed.

Example slice_to_negative : Py.slice_to (-1) [1; 2; 3] = [1; 2].
Proof. reflexivity. Qed.

(** ** ContextManager: the window is bounded and evicts first-in first-out *)

Section ContextWindow.
Import ContextManager.

Lemma last_n_length {A} (n : nat) (l : list A) : (length (last_n n l) ≤ n)%nat.
Proof. unfold last_n. rewrite length_drop. lia. Qed.

(** Appending to a bounded deque that holds the last [n] items of [l] leaves
  the last [n] items of [l ++ [x]]. *)
Lemma deque_append_last_n {A} (W : Z) (l : list A) (x : A) :
0 ≤ W →
Py.deque_append W (last_n (Z.to_nat W) l) x = last_n (Z.to_nat W) (l ++ [x]).
Proof.
intros HW. unfold Py.deque_append, last_n.
rewrite !length_app, length_drop. simpl.
destruct (decide (length l < Z.to_nat W)%nat) as [Hlt|Hge].
- replace (length l - Z.to_nat W)%nat with 0%nat by lia.
replace (length l + 1 - Z.to_nat W)%nat with 0%nat by lia.
simpl. rewrite (proj2 (Z.ltb_ge _ _)) by lia. done.
- rewrite (proj2 (Z.ltb_lt _ _)) by lia.
replace (length l + 1 - Z.to_nat W)%nat with (S (length l - Z.to_nat W)) by lia.
destruct (drop (length l - Z.to_nat W) l) as [|y ys] eqn:Hd.
+ simpl. apply (f_equal length) in Hd. rewrite length_drop in Hd. simpl in Hd.
  rewrite drop_ge; [done|]. rewrite length_app. simpl. lia.
+ assert (length l - Z.to_nat W < length l)%nat as Hk.
  { apply (f_equal length) in Hd. rewrite length_drop in Hd. simpl in Hd. lia. }
  rewrite drop_app_le by lia. simpl. f_equal.
  replace (S (length l - Z.to_nat W)) with (length l - Z.to_nat W + 1)%nat by lia.
  by rewrite <- drop_drop, Hd.
Qed.

(** What every session holds after a run of pushes that started from [hist]. *)
Definition holds_last (W : Z) (self : t) (hist : list Push) : Prop :=
window_size self = W ∧
∀ sid, default [] (_sessions self !! sid) = last_n (Z.to_nat W) (pushed_to sid hist).

Lemma pushed_to_snoc sid hist c :
pushed_to sid (hist ++ [c])
= pushed_to sid hist
++ (if decide (p_session c = sid)
    then [mkEntry (p_role c) (p_content c) (p_now c)] else []).
Proof.
unfold pushed_to. rewrite filter_app, map_app. f_equal.
rewrite filter_cons, filter_nil. by destruct (decide (p_session c = sid)).
Qed.

Lemma push_holds_last W self hist c :
0 ≤ W → holds_last W self hist →
∃ self1, push self (p_now c) (p_session c) (p_role c) (p_content c) = Py.Ok self1
       ∧ holds_last W self1 (hist ++ [c]).
Proof.
intros HW [Hw Hs]. unfold push, session.
assert (Hc := Hs (p_session c)).
destruct (_sessions self !! p_session c) as [d|] eqn:Hd; simpl in Hc.
- eexists; split; [reflexivity|]. split; [done|]. intros sid. simpl.
rewrite pushed_to_snoc. destruct (decide (p_session c = sid)) as [<-|Hne].
+ rewrite lookup_insert_eq. simpl. rewrite Hw, Hc. by apply deque_append_last_n.
+ rewrite lookup_insert_ne by done. rewrite app_nil_r. apply Hs.
- rewrite Hw. rewrite (proj2 (Z.ltb_ge _ _)) by lia.
eexists; split; [reflexivity|]. split; [done|]. intros sid. simpl.
rewrite pushed_to_snoc. destruct (decide (p_session c = sid)) as [<-|Hne].
+ rewrite lookup_insert_eq. simpl.
  rewrite <- deque_append_last_n by done. by rewrite <- Hc.
+ rewrite !lookup_insert_ne by done. rewrite app_nil_r. apply Hs.
Qed.

Lemma push_all_holds_last W calls : ∀ self hist,
0 ≤ W → holds_last W self hist →
∃ self1, push_all self calls = Py.Ok self1 ∧ holds_last W self1 (hist ++ calls).
Proof.
induction calls as [|c rest IH]; intros self hist HW Hinv.
- exists self. by rewrite app_nil_r.
- destruct (push_holds_last W self hist c HW Hinv) as (self1 & Hp & Hinv1).
destruct (IH self1 (hist ++ [c]) HW Hinv1) as (self2 & Hr & Hinv2).
exists self2. simpl. rewrite Hp. simpl. split; [done|].
by rewrite <- app_assoc in Hinv2.
Qed.

Lemma init_holds_last W : holds_last W (init W) [].
Proof. split; [done|]. intros sid. simpl. by rewrite lookup_empty. Qed.

Lemma get_context_holds_last W self hist sid :
0 ≤ W → holds_last W self hist →
∃ self1, get_context self sid
       = Py.Ok (last_n (Z.to_nat W) (pushed_to sid hist), self1).
Proof.
intros HW [Hw Hs]. unfold get_context, session. specialize (Hs sid).
destruct (_sessions self !! sid) as [d|]; simpl in Hs.
- exists self. by rewrite Hs.
- rewrite Hw, (proj2 (Z.ltb_ge _ _)) by lia. rewrite <- Hs. by eexists.
Qed.

(** The four pushes of the window test. *)
Definition four_pushes : list Push :=
[mkPush "t1" "sess1" "user" "hello";
mkPush "t2" "sess1" "assistant" "hi there";
mkPush "t3" "sess1" "user" "how are you?";
mkPush "t4" "sess1" "assistant" "great"].

(** C1.  For a window size [W >= 0] every run of pushes succeeds and leaves
  in every session exactly the last [W] entries pushed to it, oldest
  first, hence at most [W] entries; [W = 3] and four pushes leave three
  entries, the second-pushed one at index 0.  (A negative [W] makes the
  first push raise, so that no context ever exists.) *)
Theorem context_window_bounded_fifo (W : Z) (calls : list Push) (sid : string) :
(0 ≤ W →
∃ self ctx self1,
 push_all (init W) calls = Py.Ok self
 ∧ get_context self sid = Py.Ok (ctx, self1)
 ∧ ctx = last_n (Z.to_nat W) (pushed_to sid calls)
 ∧ Z.of_nat (length ctx) ≤ W)
∧ (W < 0 → ∀ c, push_all (init W) (c :: calls)
               = Py.Raise (Py.ValueError "maxlen must be non-negative"))
∧ (∃ self ctx self1,
   push_all (init 3) four_pushes = Py.Ok self
   ∧ get_context self "sess1" = Py.Ok (ctx, self1)
   ∧ length ctx = 3%nat
   ∧ ctx !! 0%nat = Some (mkEntry "assistant" "hi there" "t2")
   ∧ ctx = [mkEntry "assistant" "hi there" "t2";
            mkEntry "user" "how are you?" "t3";
            mkEntry "assistant" "great" "t4"]).
Proof.
split; [|split].
- intros HW.
destruct (push_all_holds_last W calls (init W) [] HW (init_holds_last W))
  as (self & Hrun & Hinv).
destruct (get_context_holds_last W self _ sid HW Hinv) as (self1 & Hget).
exists self, (last_n (Z.to_nat W) (pushed_to sid calls)), self1.
repeat split; try done.
pose proof (last_n_length (Z.to_nat W) (pushed_to sid calls)). lia.
- intros HW c. simpl. unfold push, session. simpl.
rewrite lookup_empty. by rewrite (proj2 (Z.ltb_lt _ _)) by lia.
- destruct (push_all_holds_last 3 four_pushes (init 3) [] ltac:(lia)
            (init_holds_last 3)) as (self & Hrun & Hinv).
destruct (get_context_holds_last 3 self _ "sess1" ltac:(lia) Hinv)
  as (self1 & Hget).
exists self, (last_n (Z.to_nat 3) (pushed_to "sess1" four_pushes)), self1.
repeat split; done.
Qed.

Lemma context_window_bounded_fifo_witness :
0 ≤ 3 ∧
∃ self ctx self1,
push_all (init 3) four_pushes = Py.Ok self
∧ get_context self "sess1" = Py.Ok (ctx, self1)
∧ ctx = last_n (Z.to_nat 3) (pushed_to "sess1" four_pushes)
∧ Z.of_nat (length ctx) ≤ 3.
Proof.
split; [lia|].
apply (proj1 (context_window_bounded_fifo 3 four_pushes "sess1")). lia.
Defined.

End ContextWindow.

(** ** ToolAccessManager: roles, checks and the audit trail *)

Section AccessControl.
Import ToolAccessManager.

(** The tools a role grants; an undefined role grants none. *)
Definition granted (self : t) (role : string) : gset string :=
default ∅ (_roles self !! role).

Lemma check_access_log self now p tl :
audit_log (check_access self now p tl).2
= audit_log self
++ [mkAudit now p tl (_principals self !! p) (check_access self now p tl).1].
Proof. reflexivity. Qed.

Lemma check_access_roles self now p tl :
_roles (check_access self now p tl).2 = _roles self
∧ _principals (check_access self now p tl).2 = _principals self.
Proof. split; reflexivity. Qed.

Lemma check_all_log_length calls : ∀ self,
length (audit_log (check_all self calls).2)
= (length (audit_log self) + length calls)%nat.
Proof.
induction calls as [|[[now p] tl] rest IH]; intros self; simpl.
- lia.
- specialize (IH (check_access self now p tl).2).
destruct (check_all (check_access self now p tl).2 rest) as [bs self2] eqn:Hrest.
unfold check_access in *. simpl in *. rewrite Hrest. simpl.
unfold audit_log in *. rewrite length_app in IH. simpl in IH. lia.
Qed.

(** C6.  [check_access] is a total function (nothing in it can raise); each
  call appends exactly one audit entry whatever the outcome, so [n] calls
  append [n]; a principal without a role is refused, and
  [permitted_tools] lists nothing for it. *)
Theorem check_access_audits_every_call (self : t) (now p tl : string)
(calls : list (string * string * string)) :
(∃ e, audit_log (check_access self now p tl).2 = audit_log self ++ [e]
    ∧ principal e = p ∧ tool e = tl
    ∧ role e = _principals self !! p
    ∧ allowed e = (check_access self now p tl).1)
∧ length (audit_log (check_all self calls).2)
= (length (audit_log self) + length calls)%nat
∧ (_principals self !! p = None →
 (check_access self now p tl).1 = false
 ∧ length (audit_log (check_access self now p tl).2)
   = S (length (audit_log self))
 ∧ permitted_tools self p = []).
Proof.
split; [|split].
- eexists. split; [apply check_access_log|]. done.
- apply check_all_log_length.
- intros Hnone. unfold check_access, permitted_tools, audit_log.
rewrite Hnone. simpl. rewrite length_app. simpl.
split; [done|]. split; [lia|].
by rewrite elements_empty.
Qed.

(** The manager of the access test: one role, one assigned principal. *)
Definition analyst_manager : t :=
assign_role (define_role init "analyst" ["policy_analyze"; "vector_search"])
"agent_a" "analyst".

Lemma check_access_audits_every_call_witness :
_principals analyst_manager !! "unknown_agent" = None
∧ (check_access analyst_manager "t" "unknown_agent" "policy_analyze").1 = false
∧ length (audit_log (check_access analyst_manager "t" "unknown_agent"
                     "policy_analyze").2)
= S (length (audit_log analyst_manager))
∧ permitted_tools analyst_manager "unknown_agent" = [].
Proof.
assert (_principals analyst_manager !! "unknown_agent" = None) as Hnone
by (vm_compute; reflexivity).
split; [exact Hnone|].
exact (proj2 (proj2 (check_access_audits_every_call analyst_manager "t"
                     "unknown_agent" "policy_analyze" [])) Hnone).
Defined.

(** C9.  [define_role] replaces the role's tool set by its union with the
  listed tools: after a second call the set is the union of what the
  first call left and the new tools, and nothing granted is lost. *)
Theorem define_role_is_additive (self : t) (role : string)
(tools1 tools2 : list string) :
let self1 := define_role self role tools1 in
let self2 := define_role self1 role tools2 in
_roles self2 !! role = Some (granted self1 role ∪ list_to_set tools2)
∧ granted self1 role = granted self role ∪ list_to_set tools1
∧ granted self2 role
= granted self role ∪ list_to_set tools1 ∪ list_to_set tools2
∧ granted self role ⊆ granted self1 role
∧ granted self1 role ⊆ granted self2 role
∧ (∀ tl, tl ∈ granted self2 role ↔ tl ∈ granted self1 role ∨ tl ∈ tools2).
Proof.
intros self1 self2. unfold granted. subst self1 self2. unfold define_role. simpl.
rewrite !lookup_insert_eq. simpl.
split; [done|]. split; [done|]. split; [done|].
split; [apply union_subseteq_l|]. split; [apply union_subseteq_l|].
intros tl. rewrite elem_of_union, elem_of_list_to_set. done.
Qed.

(** C10.  [check_access] writes nothing but the audit log: the role
  definitions and the role assignments are the same before and after, and
  the log is the old one followed by one entry. *)
Theorem check_access_frame (self : t) (now p tl : string) :
let self1 := (check_access self now p tl).2 in
_roles self1 = _roles self
∧ _principals self1 = _principals self
∧ (∃ e, _audit_log self1 = _audit_log self ++ [e])
∧ length (_audit_log self1) = S (length (_audit_log self)).
Proof.
simpl. repeat split; try done.
- by eexists.
- rewrite length_app. simpl. lia.
Qed.

End AccessControl.

(** ** EvaluationEngine: what [aggregate] returns *)

Section Aggregate.
Import EvaluationEngine.

(** The non-null values recorded for one metric, oldest first. *)
Definition values_in (metric : string) (scores : list (string * option Q)) : list Q :=
omap (λ mv, if decide (mv.1 = metric) then mv.2 else None) scores.

Definition recorded (metric : string) (records : list Evaluation) : list Q :=
concat (map (λ r, values_in metric (scores r)) records).

(** No key of the accumulator holds an empty list. *)
Definition tidy (agg : gmap string (list Q)) : Prop :=
∀ metric, agg !! metric ≠ Some [].

Lemma collect_spec scores : ∀ agg,
tidy agg →
tidy (collect agg scores)
∧ ∀ metric, default [] (collect agg scores !! metric)
          = default [] (agg !! metric) ++ values_in metric scores.
Proof.
induction scores as [|[m [v|]] rest IH]; intros agg Hagg.
- split; [done|]. intros metric. unfold values_in. simpl. by rewrite app_nil_r.
- assert (tidy (<[m := default [] (agg !! m) ++ [v]]> agg)) as Hnext.
{ intros metric. destruct (decide (m = metric)) as [->|Hne].
  - rewrite lookup_insert_eq. intros [=Heq]. by destruct (default [] (agg !! metric)).
  - rewrite lookup_insert_ne by done. apply Hagg. }
destruct (IH _ Hnext) as [Ht Hv]. split; [exact Ht|].
intros metric. unfold collect in *. simpl. rewrite Hv.
unfold values_in. simpl. destruct (decide (m = metric)) as [->|Hne].
+ rewrite lookup_insert_eq. simpl. by rewrite <- app_assoc.
+ by rewrite lookup_insert_ne.
- destruct (IH _ Hagg) as [Ht Hv]. split; [exact Ht|].
intros metric. unfold collect in *. simpl. rewrite Hv.
unfold values_in. simpl. by destruct (decide (m = metric)).
Qed.

Lemma collect_records_spec records : ∀ agg,
tidy agg →
tidy (foldl (λ agg r, collect agg (scores r)) agg records)
∧ ∀ metric,
  default [] (foldl (λ agg r, collect agg (scores r)) agg records !! metric)
  = default [] (agg !! metric) ++ recorded metric records.
Proof.
induction records as [|r rest IH]; intros agg Hagg.
- split; [done|]. intros metric. unfold recorded. simpl. by rewrite app_nil_r.
- destruct (collect_spec (scores r) agg Hagg) as [Ht Hv].
destruct (IH _ Ht) as [Ht' Hv']. split; [exact Ht'|].
intros metric. simpl. rewrite Hv', Hv. unfold recorded. simpl.
by rewrite <- app_assoc.
Qed.

(** The accumulator has a key exactly for the metrics with a non-null value. *)
Lemma collect_all_lookup records metric :
collect_all records !! metric
= match recorded metric records with
| [] => None
| vals => Some vals
end.
Proof.
destruct (collect_records_spec records ∅) as [Ht Hv]; [intros m; by rewrite lookup_empty|].
specialize (Hv metric). specialize (Ht metric). rewrite lookup_empty in Hv. simpl in Hv.
unfold collect_all. rewrite <- Hv.
destruct (foldl _ _ _ !! metric) as [[|x l]|]; simpl; done.
Qed.

(** With at least one record, a metric with a non-null value maps to the mean
  of those values, and a metric without one is not a key of the result. *)
Lemma aggregate_lookup self agent_name metric r rest :
_records self !! agent_name = Some (r :: rest) →
aggregate self agent_name !! metric
= match recorded metric (r :: rest) with
| [] => None
| vals => Some (mean vals)
end.
Proof.
intros Hrec. unfold aggregate. rewrite Hrec. simpl default. cbv iota.
rewrite lookup_fmap, collect_all_lookup.
by destruct (recorded metric (r :: rest)).
Qed.

(** Without records every metric maps to null. *)
Lemma aggregate_no_records self agent_name metric :
default [] (_records self !! agent_name) = [] →
metric ∈ EVALUATION_METRICS →
aggregate self agent_name !! metric = Some None.
Proof.
intros Hrec Hin. unfold aggregate. rewrite Hrec.
unfold EVALUATION_METRICS in *. simpl.
apply elem_of_cons in Hin as [->|Hin]; [done|].
apply elem_of_cons in Hin as [->|Hin]; [done|].
apply list_elem_of_singleton in Hin as ->. done.
Qed.

(** C3.  One evaluation without a ground-truth label: [aggregate] returns the
  means of the two heuristic scores and no "correctness" entry at all, where
  the claim (and the function's own description) promise the entry with a
  null value, as the no-record case gives it. *)
Theorem aggregate_omits_unlabelled_correctness
(hallucination : string -> Q) (relevance : string -> string -> Q)
(now agent_name prompt response : string) :
let self := (evaluate hallucination relevance init now agent_name prompt response None).2 in
aggregate self agent_name !! "correctness" = None
∧ aggregate self agent_name !! "hallucination_frequency"
= Some (mean [hallucination response])
∧ aggregate self agent_name !! "context_relevance"
= Some (mean [relevance prompt response])
∧ aggregate init agent_name !! "correctness" = Some None.
Proof.
intros self.
assert (_records self !! agent_name
      = Some [mkEvaluation agent_name now
                [("hallucination_frequency", Some (hallucination response));
                 ("context_relevance", Some (relevance prompt response));
                 ("correctness", None)]]) as Hrec.
{ subst self. unfold evaluate. simpl. by rewrite lookup_insert_eq, lookup_empty. }
repeat split.
- by rewrite (aggregate_lookup _ _ _ _ _ Hrec).
- by rewrite (aggregate_lookup _ _ _ _ _ Hrec).
- by rewrite (aggregate_lookup _ _ _ _ _ Hrec).
Qed.

End Aggregate.

(** ** LLMCore: which handler answers a completion request *)

Section Completion.
Import LLMCore.
Context {Options World : Type}.
Implicit Types (self : t Options World) (h : Handler Options World).

(** A request names a provider when the argument is a non-empty string. *)
Definition names (provider : option string) (name : string) : Prop :=
provider = Some name ∧ name ≠ "".

(** No provider is named: the argument is [None] or the empty string. *)
Definition unnamed (provider : option string) : Prop :=
provider = None ∨ provider = Some "".

(** The answer built from handler [h] registered as [name]. *)
Definition answered_by (name : string) h self (prompt : string) (kwargs : Options)
(w : World) : Py.result Completion * t Options World * World :=
(text ← (h prompt kwargs w).1;
Py.Ok (mkCompletion text name (length (Py.split prompt)) (length (Py.split text))),
self, (h prompt kwargs w).2).

(** The answer of the built-in mock. *)
Definition answered_by_mock self (prompt : string) (w : World)
: Py.result Completion * t Options World * World :=
(Py.Ok (mkCompletion (mock_response prompt) "mock"
        (length (Py.split prompt)) (length (Py.split (mock_response prompt)))),
self, w).

Lemma chosen_name_named self provider name :
names provider name → chosen_name self provider = Some name.
Proof. intros [-> Hne]. unfold chosen_name. by destruct name. Qed.

Lemma chosen_name_unnamed self provider :
unnamed provider → chosen_name self provider = _default_provider self.
Proof. by intros [->| ->]. Qed.

Lemma complete_resolved self prompt provider kwargs w name h :
chosen_name self provider = Some name → name ≠ "" →
_providers self !! name = Some h →
complete self prompt provider kwargs w = answered_by name h self prompt kwargs w.
Proof.
intros Hc Hne Hh. unfold complete, resolve, answered_by. rewrite Hc.
destruct name as [|c rest]; [done|]. rewrite Hh.
by destruct (h prompt kwargs w).
Qed.

Lemma complete_unresolved self prompt provider kwargs w :
(∀ name, chosen_name self provider = Some name → name ≠ "" →
       _providers self !! name = None) →
complete self prompt provider kwargs w = answered_by_mock self prompt w.
Proof.
intros Hnone. unfold complete, resolve, answered_by_mock.
destruct (chosen_name self provider) as [[|c rest]|] eqn:Hc; try done.
by rewrite (Hnone _ eq_refl).
Qed.

(** What [complete] does, case by case.  The provider argument counts as a
  name only when it is a non-empty string, and the default only when its
  name is non-empty.  A named provider that is registered answers, under
  its own name; when no provider is named, a registered default with a
  non-empty name answers; in every other case the mock answers under the
  name "mock" and nothing else happens.  The record holds the text, the
  name and the two whitespace-split word counts. *)
Lemma complete_by_cases self (prompt : string) (provider : option string)
(kwargs : Options) (w : World) :
(∀ name h, names provider name → _providers self !! name = Some h →
 complete self prompt provider kwargs w = answered_by name h self prompt kwargs w)
∧ (∀ d h, unnamed provider → _default_provider self = Some d → d ≠ "" →
   _providers self !! d = Some h →
   complete self prompt provider kwargs w = answered_by d h self prompt kwargs w)
∧ (∀ name, names provider name → _providers self !! name = None →
   complete self prompt provider kwargs w = answered_by_mock self prompt w)
∧ (unnamed provider →
 (_default_provider self = None ∨ _default_provider self = Some ""
  ∨ ∃ d, _default_provider self = Some d ∧ _providers self !! d = None) →
 complete self prompt provider kwargs w = answered_by_mock self prompt w)
∧ mock_response prompt
= "[mock response to: " +:+ Py.prefix 80 prompt
  +:+ (if (80 <? String.length prompt)%nat then "..." else "") +:+ "]".
Proof.
split; [|split; [|split; [|split]]].
- intros name h Hn Hh. apply complete_resolved; [|apply Hn|done].
by apply chosen_name_named.
- intros d h Hu Hd Hne Hh. apply complete_resolved; [|done..].
by rewrite chosen_name_unnamed.
- intros name Hn Hh. apply complete_unresolved. intros name' Hc _.
rewrite (chosen_name_named _ _ _ Hn) in Hc. by injection Hc as <-.
- intros Hu Hd. apply complete_unresolved. intros name Hc Hne.
rewrite (chosen_name_unnamed _ _ Hu) in Hc.
destruct Hd as [Hd|[Hd|(d & Hd & Hnone)]]; rewrite Hd in Hc; try done.
+ by injection Hc as <-.
+ by injection Hc as <-.
- reflexivity.
Qed.

(** C4.  A request that names a provider which is not registered is answered
  by the mock, also when a default provider is registered that answers the
  same request when it comes without a name: the default is passed over,
  where the description of [complete] and the claim have the request fall
  back to the default provider first and to the mock only after it.  A
  provider registered under the empty name, default or not, is never
  reached: the test [chosen and ...] takes the empty name for no name. *)
Theorem complete_passes_over_default self (prompt : string) (kwargs : Options) (w : World) :
(∀ name d h, name ≠ "" → _providers self !! name = None →
 _default_provider self = Some d → d ≠ "" → _providers self !! d = Some h →
 complete self prompt (Some name) kwargs w = answered_by_mock self prompt w
 ∧ complete self prompt None kwargs w = answered_by d h self prompt kwargs w)
∧ (∀ h, let self0 := register_provider self "" h true in
 complete self0 prompt None kwargs w = answered_by_mock self0 prompt w
 ∧ complete self0 prompt (Some "") kwargs w = answered_by_mock self0 prompt w).
Proof.
split.
- intros name d h Hne Hnone Hd Hdne Hh. split.
+ apply complete_unresolved. intros name' Hc _.
  rewrite (chosen_name_named self (Some name) name) in Hc by done.
  by injection Hc as <-.
+ apply complete_resolved; [|done..]. rewrite chosen_name_unnamed; [done|by left].
- intros h self0. split; apply complete_unresolved; intros name Hc Hne.
+ rewrite chosen_name_unnamed in Hc by (by left). simpl in Hc. by injection Hc as <-.
+ rewrite chosen_name_unnamed in Hc by (by right). simpl in Hc. by injection Hc as <-.
Qed.

(** C5.  When the handler that a request resolves to raises [e], [complete]
  ends with that same [e]: there is no result record (so no mock answer),
  the world is the one the single handler call left (a retry would have
  called the handler again from [w1]), and the gateway is as before. *)
Theorem complete_propagates_failure self (prompt : string) (provider : option string)
(kwargs : Options) (w w1 : World) (name : string) h (e : Py.exn) :
chosen_name self provider = Some name → name ≠ "" →
_providers self !! name = Some h →
h prompt kwargs w = (Py.Raise e, w1) →
complete self prompt provider kwargs w = (Py.Raise e, self, w1).
Proof.
intros Hc Hne Hh Hraise.
rewrite (complete_resolved _ _ _ _ _ _ _ Hc Hne Hh).
unfold answered_by. by rewrite Hraise.
Qed.

End Completion.

(** A backend that answers "pong" and leaves the world alone. *)
Definition pong : LLMCore.Handler unit unit := λ _ _ w, (Py.Ok "pong", w).

(** A backend that is down on its first call and up afterwards; the world
    counts the calls. *)
Definition flaky : LLMCore.Handler unit nat :=
  λ _ _ calls,
    (match calls with
     | O => Py.Raise (Py.Exception "backend unavailable")
     | S _ => Py.Ok "recovered"
     end, S calls).

Lemma complete_passes_over_default_witness :
  LLMCore.complete (LLMCore.register_provider LLMCore.init "backend" pong false)
    "Hello, world!" (Some "other") () ()
  = (Py.Ok (LLMCore.mkCompletion "[mock response to: Hello, world!]" "mock" 2 5),
     LLMCore.register_provider LLMCore.init "backend" pong false, ())
  ∧ LLMCore.complete (LLMCore.register_provider LLMCore.init "backend" pong false)
      "Hello, world!" None () ()
    = (Py.Ok (LLMCore.mkCompletion "pong" "backend" 2 1),
       LLMCore.register_provider LLMCore.init "backend" pong false, ()).
Proof.
  apply (proj1 (complete_passes_over_default
                  (LLMCore.register_provider LLMCore.init "backend" pong false)
                  "Hello, world!" () ()) "other" "backend" pong).
  - discriminate.
  - vm_compute. reflexivity.
  - reflexivity.
  - discriminate.
  - vm_compute. reflexivity.
Defined.

Lemma complete_propagates_failure_witness :
  LLMCore.complete (LLMCore.register_provider LLMCore.init "backend" flaky false)
    "Hello, world!" None () 0%nat
  = (Py.Raise (Py.Exception "backend unavailable"),
     LLMCore.register_provider LLMCore.init "backend" flaky false, 1%nat).
Proof.
  apply (complete_propagates_failure _ _ _ _ _ _ "backend" flaky).
  - reflexivity.
  - discriminate.
  - vm_compute. reflexivity.
  - reflexivity.
Defined.

(** ** [sorted(..., reverse=True)]: a stable, descending rearrangement *)

Section SortedReverse.
Context {A K : Type} (ltb : K -> K -> bool) (key : A -> K).

Lemma insert_reverse_perm x l : Py.insert_reverse ltb key x l ≡ₚ x :: l.
Proof.
induction l as [|y ys IH]; simpl; [done|].
destruct (ltb (key x) (key y)); [|done].
rewrite IH. apply Permutation_swap.
Qed.

Lemma sorted_reverse_perm l : Py.sorted_reverse ltb key l ≡ₚ l.
Proof.
induction l as [|x xs IH]; simpl; [done|].
by rewrite insert_reverse_perm, IH.
Qed.

Lemma sorted_reverse_elem x l : x ∈ Py.sorted_reverse ltb key l ↔ x ∈ l.
Proof. by rewrite sorted_reverse_perm. Qed.


Section Stable.
Context (P : A -> Prop) `{∀ x, Decision (P x)}.

(** Elements of a class [P] whose keys do not rank one below the other keep
their relative order. *)
Lemma insert_reverse_filter x l :
  (P x → ∀ y, y ∈ l → P y → ltb (key x) (key y) = false) →
  filter P (Py.insert_reverse ltb key x l) = filter P (x :: l).
Proof.
  induction l as [|y ys IH]; intros Hxy; simpl; [done|].
  destruct (ltb (key x) (key y)) eqn:Hlt; [|done].
  rewrite filter_cons, IH.
  - rewrite !filter_cons.
destruct (decide (P y)) as [Py|]; [|done].
destruct (decide (P x)) as [Px|]; [|done].
rewrite (Hxy Px y) in Hlt; [done| |done]. by left.
  - intros Px z Hz Pz. apply (Hxy Px); [by right|done].
Qed.

Lemma sorted_reverse_filter l :
  (∀ x y, x ∈ l → y ∈ l → P x → P y → ltb (key x) (key y) = false) →
  filter P (Py.sorted_reverse ltb key l) = filter P l.
Proof.
  induction l as [|x xs IH]; intros Hl; simpl; [done|].
  rewrite insert_reverse_filter.
  - rewrite !filter_cons, IH; [done|].
intros a b Ha Hb. apply Hl; by right.
  - intros Px y Hy Py. apply (proj1 (sorted_reverse_elem _ _)) in Hy.
apply Hl; [by left|by right|done..].
Qed.
End Stable.

Section Descending.
Hypothesis ltb_asym : ∀ a b, ltb a b = true → ltb b a = false.
Hypothesis ltb_negtrans : ∀ a b c, ltb a b = false → ltb b c = false → ltb a c = false.

(** [x] does not rank below [y]. *)
Definition not_below (x y : A) : Prop := ltb (key x) (key y) = false.

Lemma insert_reverse_sorted x l :
  StronglySorted not_below l → StronglySorted not_below (Py.insert_reverse ltb key x l).
Proof.
  induction 1 as [|y ys Hys IH Hy]; simpl.
  - repeat constructor.
  - destruct (ltb (key x) (key y)) eqn:Hlt.
+ constructor; [exact IH|].
  rewrite insert_reverse_perm. constructor; [|done].
  by apply ltb_asym.
+ constructor; [by constructor|].
  constructor; [done|].
  eapply Forall_impl; [exact Hy|].
  intros z Hz. by apply (ltb_negtrans _ (key y)).
Qed.

Lemma sorted_reverse_sorted l : StronglySorted not_below (Py.sorted_reverse ltb key l).
Proof.
  induction l as [|x xs IH]; simpl; [constructor|].
  by apply insert_reverse_sorted.
Qed.

(** The first element of the sorted list ranks below no element. *)
Lemma sorted_reverse_head l t rest :
  Py.sorted_reverse ltb key l = t :: rest →
  ltb (key t) (key t) = false →
  ∀ u, u ∈ l → not_below t u.
Proof.
  intros Hs Hirr u Hu. apply (proj2 (sorted_reverse_elem _ _)) in Hu.
  pose proof (sorted_reverse_sorted l) as Hsorted. rewrite Hs in Hsorted, Hu.
  apply StronglySorted_inv in Hsorted as [_ Hall].
  apply elem_of_cons in Hu as [->|Hu]; [done|].
  by eapply Forall_forall in Hall.
Qed.
End Descending.
End SortedReverse.

(** ** Scheduler: which task [next_task] returns *)

Section Scheduling.
Import Scheduler.
Context {Any : Type}.
Implicit Types (u v : Task Any) (q pending : list (Task Any)) (self : t Any).

(** The tasks of one priority, in the order of the list. *)
Definition of_priority (p : Z) (q : list (Task Any)) : list (Task Any) :=
filter (λ u, priority u = p) q.

Lemma sorted_of_priority p q :
of_priority p (Py.sorted_reverse Z.ltb priority q) = of_priority p q.
Proof.
apply sorted_reverse_filter. intros x y _ _ Hx Hy. rewrite Hx, Hy. apply Z.ltb_irrefl.
Qed.

Lemma sorted_head_highest q u rest :
Py.sorted_reverse Z.ltb priority q = u :: rest →
∀ v, v ∈ q → priority v ≤ priority u.
Proof.
intros Hs v Hv. apply Z.ltb_ge.
eapply (sorted_reverse_head Z.ltb priority); [| |exact Hs| |exact Hv].
- intros a b Hab. apply Z.ltb_lt in Hab. apply Z.ltb_ge. lia.
- intros a b c Hab Hbc. apply Z.ltb_ge in Hab, Hbc. apply Z.ltb_ge. lia.
- apply Z.ltb_irrefl.
Qed.

(** [q] holds the tasks of [pending], those of equal priority in the same
  order. *)
Definition same_classes q pending : Prop :=
∀ p, of_priority p q = of_priority p pending.

Lemma same_classes_elem q pending u :
same_classes q pending → u ∈ q → u ∈ pending.
Proof.
intros Hsame Hu.
assert (u ∈ of_priority (priority u) q) as Hin by (by apply list_elem_of_filter).
rewrite Hsame in Hin. by apply list_elem_of_filter in Hin as [_ ?].
Qed.

Lemma same_classes_sym q pending : same_classes q pending → same_classes pending q.
Proof. intros Hsame p. by rewrite Hsame. Qed.

Lemma highest_priority_bounds pending : ∀ p,
p ≤ highest_priority p pending
∧ (∀ u, u ∈ pending → priority u ≤ highest_priority p pending)
∧ (highest_priority p pending = p
 ∨ ∃ u, u ∈ pending ∧ priority u = highest_priority p pending).
Proof.
induction pending as [|v rest IH]; intros p; simpl.
- split; [lia|]. split; [|by left]. intros u Hu. by apply elem_of_nil in Hu.
- destruct (IH (Z.max p (priority v))) as (Hp & Hall & Hatt).
split; [lia|]. split.
+ intros u Hu. apply elem_of_cons in Hu as [->|Hu]; [lia|by apply Hall].
+ destruct Hatt as [Heq|(u & Hu & Heq)].
  * destruct (Z.max_spec p (priority v)) as [[_ Hm]|[_ Hm]].
    -- right. exists v. split; [by left|]. by rewrite Heq.
    -- left. by rewrite Heq.
  * right. exists u. split; [by right|done].
Qed.

Lemma take_first_split (P : Task Any -> bool) pending : ∀ v pending1,
take_first P pending = Some (v, pending1) →
∃ pre post, pending = pre ++ v :: post ∧ pending1 = pre ++ post
          ∧ P v = true ∧ Forall (λ u, P u = false) pre.
Proof.
induction pending as [|u rest IH]; intros v pending1 Htake; simpl in Htake; [done|].
destruct (P u) eqn:HPu.
- injection Htake as <- <-. by exists [], rest.
- destruct (take_first P rest) as [[v' rest1]|] eqn:Hrest; simpl in Htake; [|done].
injection Htake as <- <-.
destruct (IH _ _ eq_refl) as (pre & post & -> & -> & HPv & Hpre).
exists (u :: pre), post. repeat split; try done. by constructor.
Qed.

Lemma take_first_found (P : Task Any -> bool) pending u :
u ∈ pending → P u = true → is_Some (take_first P pending).
Proof.
induction pending as [|v rest IH]; intros Hu HPu; [by apply elem_of_nil in Hu|].
simpl. destruct (P v) eqn:HPv; [by eexists|].
apply elem_of_cons in Hu as [->|Hu]; [congruence|].
destruct (IH Hu HPu) as [[w rest1] ->]. by eexists.
Qed.

(** [select_priority] reads as the specification says: the task taken has the
  highest priority of all pending tasks, and every task submitted before it
  has a strictly lower one. *)
Lemma select_priority_spec pending u pending1 :
select_priority pending = Some (u, pending1) →
∃ pre post, pending = pre ++ u :: post ∧ pending1 = pre ++ post
          ∧ (∀ v, v ∈ pending → priority v ≤ priority u)
          ∧ (∀ v, v ∈ pre → priority v < priority u).
Proof.
destruct pending as [|w rest]; [done|]. unfold select_priority. intros Htake.
destruct (take_first_split _ _ _ _ Htake) as (pre & post & Hsplit & -> & Hu & Hpre).
apply Z.eqb_eq in Hu.
destruct (highest_priority_bounds rest (priority w)) as (Hw & Hall & _).
assert (∀ v, v ∈ w :: rest → priority v ≤ priority u) as Hmax.
{ intros v Hv. rewrite Hu. apply elem_of_cons in Hv as [->|Hv]; [done|by apply Hall]. }
exists pre, post. repeat split; try done.
intros v Hv. eapply Forall_forall in Hpre; [|exact Hv]. apply Z.eqb_neq in Hpre.
assert (priority v ≤ priority u); [|lia].
apply Hmax. rewrite Hsplit. apply elem_of_app. by left.
Qed.

Lemma select_priority_some pending :
pending ≠ [] → is_Some (select_priority pending).
Proof.
destruct pending as [|w rest]; [done|]. intros _. unfold select_priority.
destruct (highest_priority_bounds rest (priority w)) as (_ & _ & [Heq|(u & Hu & Heq)]).
- apply (take_first_found _ _ w); [by left|]. by apply Z.eqb_eq.
- apply (take_first_found _ _ u); [by right|]. by apply Z.eqb_eq.
Qed.

Lemma of_priority_app p q1 q2 : of_priority p (q1 ++ q2) = of_priority p q1 ++ of_priority p q2.
Proof. apply filter_app. Qed.

Lemma of_priority_lower p pre :
Forall (λ u, (priority u =? p) = false) pre → of_priority p pre = [].
Proof.
induction 1 as [|u rest Hu _ IH]; [done|].
unfold of_priority in *. rewrite filter_cons, IH.
apply Z.eqb_neq in Hu. by destruct (decide (priority u = p)).
Qed.

Lemma of_priority_cons p u q :
of_priority p (u :: q)
= if decide (priority u = p) then u :: of_priority p q else of_priority p q.
Proof. unfold of_priority. by rewrite filter_cons. Qed.

(** Under the priority policy a non-empty queue is sorted and its first task
  is returned; the sorted rest stays queued. *)
Lemma next_task_sorts self :
policy self = "priority" → _queue self ≠ [] →
∃ u rest, Py.sorted_reverse Z.ltb priority (_queue self) = u :: rest
        ∧ next_task self = Py.Ok (Some u, mk (policy self) rest (_completed self)).
Proof.
intros Hpol Hne.
destruct (Py.sorted_reverse Z.ltb priority (_queue self)) as [|u rest] eqn:Hs.
{ apply (f_equal length) in Hs.
rewrite (Permutation_length (sorted_reverse_perm _ _ _)) in Hs.
by destruct (_queue self). }
exists u, rest. split; [done|]. unfold next_task.
destruct (_queue self) as [|x xs] eqn:Hq; [done|].
rewrite bool_decide_true by done. by rewrite Hs.
Qed.

(** Under the other policies the first queued task is returned. *)
Lemma next_task_pops self u rest :
policy self ≠ "priority" → _queue self = u :: rest →
next_task self = Py.Ok (Some u, mk (policy self) rest (_completed self)).
Proof.
intros Hpol Hq. unfold next_task. rewrite Hq.
by rewrite bool_decide_false by done.
Qed.

Lemma next_task_empty self : _queue self = [] → next_task self = Py.Ok (None, self).
Proof. intros Hq. unfold next_task. by rewrite Hq. Qed.

(** One [next_task] under the priority policy agrees with [select_priority] on
  the pending tasks. *)
Lemma next_task_priority self pending :
policy self = "priority" → same_classes (_queue self) pending →
∃ o self1 pending1,
next_task self = Py.Ok (o, self1)
∧ policy self1 = "priority" ∧ same_classes (_queue self1) pending1
∧ match select_priority pending with
  | Some (u, rest) => o = Some u ∧ pending1 = rest
  | None => o = None ∧ pending1 = pending
  end.
Proof.
intros Hpol Hsame.
destruct (decide (_queue self = [])) as [Hq|Hq].
{ exists None, self, pending. rewrite (next_task_empty _ Hq).
repeat split; try done.
destruct pending as [|w rest]; [done|].
assert (w ∈ _queue self) as Hw
  by (apply (same_classes_elem (w :: rest)); [by apply same_classes_sym|by left]).
rewrite Hq in Hw. by apply elem_of_nil in Hw. }
destruct (next_task_sorts self Hpol Hq) as (t & rest & Hs & Hnext).
assert (t ∈ _queue self) as Ht
by (apply (sorted_reverse_elem Z.ltb priority); rewrite Hs; by left).
pose proof (sorted_head_highest _ _ _ Hs) as Hmax.
assert (t ∈ pending) as Htp by (by apply (same_classes_elem (_queue self))).
destruct pending as [|w rest0] eqn:Hpend; [by apply elem_of_nil in Htp|].
rewrite <- Hpend in *.
set (m := highest_priority (priority w) rest0).
assert (m = priority t) as Hm.
{ destruct (highest_priority_bounds rest0 (priority w)) as (Hw & Hall & Hatt).
fold m in Hw, Hall, Hatt. apply Z.le_antisymm.
- assert (∀ v, v ∈ pending → priority v ≤ priority t) as Hmaxp.
  { intros v Hv. apply Hmax. by apply (same_classes_elem pending);
      [apply same_classes_sym|]. }
  destruct Hatt as [->|(v & Hv & <-)]; apply Hmaxp; rewrite Hpend; [by left|by right].
- rewrite Hpend in Htp. apply elem_of_cons in Htp as [->|Htp]; [done|by apply Hall]. }
assert (select_priority pending = take_first (λ v, priority v =? m) pending) as Hsel
by (by rewrite Hpend).
destruct (take_first_found (λ v, priority v =? m) pending t Htp) as [[v pending1] Htake];
[by apply Z.eqb_eq|].
destruct (take_first_split _ _ _ _ Htake) as (pre & post & Hsplit & Hrest & Hv & Hpre).
apply Z.eqb_eq in Hv. apply of_priority_lower in Hpre.
assert (∀ p, of_priority p (t :: rest) = of_priority p pre ++ of_priority p (v :: post))
as Hcls.
{ intros p. rewrite <- Hs, sorted_of_priority, Hsame, Hsplit. apply of_priority_app. }
assert (v = t) as ->.
{ specialize (Hcls m). rewrite Hpre, !of_priority_cons in Hcls.
rewrite !decide_True in Hcls by done. by injection Hcls. }
exists (Some t), (mk (policy self) rest (_completed self)), pending1.
rewrite Hsel, Htake. repeat split; try done.
intros p. simpl. rewrite Hrest, of_priority_app.
specialize (Hcls p). rewrite !of_priority_cons in Hcls.
destruct (decide (priority t = p)) as [<-|Hne]; [|done].
rewrite <- Hm, Hpre in *. simpl in Hcls. by injection Hcls.
Qed.

Lemma submit_same_classes self pending now i a (x : Any) n :
same_classes (_queue self) pending →
same_classes (_queue (submit self now i a x n).2)
(pending ++ [mkTask i a x n now "queued" None None]).
Proof. intros Hsame p. simpl. by rewrite !of_priority_app, Hsame. Qed.

Lemma run_priority calls : ∀ self pending,
policy self = "priority" → same_classes (_queue self) pending →
∃ self1, run self calls = Py.Ok (expected select_priority pending calls, self1).
Proof.
induction calls as [|[now i a x n|] rest IH]; intros self pending Hpol Hsame; simpl.
- by eexists.
- apply IH; [done|]. by apply submit_same_classes.
- destruct (next_task_priority self pending Hpol Hsame)
  as (o & self1 & pending1 & Hnext & Hpol1 & Hsame1 & Hsel).
destruct (IH self1 pending1 Hpol1 Hsame1) as (self2 & Hrun).
exists self2. rewrite Hnext. simpl. rewrite Hrun. simpl.
destruct (select_priority pending) as [[u rest1]|]; destruct Hsel as [-> ->]; done.
Qed.

Lemma run_fifo calls : ∀ self,
policy self ≠ "priority" →
∃ self1, run self calls = Py.Ok (expected select_fifo (_queue self) calls, self1).
Proof.
induction calls as [|[now i a x n|] rest IH]; intros self Hpol; simpl.
- by eexists.
- by apply (IH (submit self now i a x n).2).
- destruct (_queue self) as [|u q] eqn:Hq.
+ rewrite (next_task_empty _ Hq). simpl.
  destruct (IH self Hpol) as (self2 & Hrun). rewrite Hq in Hrun.
  exists self2. by rewrite Hrun.
+ rewrite (next_task_pops _ _ _ Hpol Hq). simpl.
  destruct (IH (mk (policy self) q (_completed self)) Hpol) as (self2 & Hrun).
  exists self2. by rewrite Hrun.
Qed.

End Scheduling.

(** The submissions of the scheduler test: priorities 1, 10 and 5. *)
Definition three_submissions : list (Scheduler.Call string) :=
  [Scheduler.Submit "t" "t1" "agent_a" "payload1" 1;
   Scheduler.Submit "t" "t2" "agent_b" "payload2" 10;
   Scheduler.Submit "t" "t3" "agent_c" "payload3" 5;
   Scheduler.NextTask].

(** C2.  From a fresh scheduler and for every sequence of [submit] and
    [next_task] calls: under "priority" each [next_task] returns what
    [select_priority] takes from the tasks submitted and not yet returned,
    which is the earliest submitted among those of highest priority (every
    pending task has at most its priority, every task submitted before it a
    strictly lower one), and a task whenever one is pending; under "fifo" it
    returns the earliest submitted one whatever the priorities.  Priorities
    1, 10, 5 make the priority-10 task come first. *)
Theorem next_task_follows_policy {Any : Type} (calls : list (Scheduler.Call Any)) :
  (∃ self self1,
     Scheduler.init "priority" = Py.Ok self
     ∧ Scheduler.run self calls
       = Py.Ok (Scheduler.expected Scheduler.select_priority [] calls, self1))
  ∧ (∀ pending : list (Scheduler.Task Any),
       pending ≠ [] →
       ∃ u pre post,
         Scheduler.select_priority pending = Some (u, pre ++ post)
         ∧ pending = pre ++ u :: post
         ∧ (∀ v, v ∈ pending → Scheduler.priority v ≤ Scheduler.priority u)
         ∧ (∀ v, v ∈ pre → Scheduler.priority v < Scheduler.priority u))
  ∧ (∃ self self1,
       Scheduler.init "fifo" = Py.Ok self
       ∧ Scheduler.run self calls
         = Py.Ok (Scheduler.expected Scheduler.select_fifo [] calls, self1))
  ∧ (∃ self self1,
       Scheduler.init "priority" = Py.Ok self
       ∧ Scheduler.run self three_submissions
         = Py.Ok ([Some (Scheduler.mkTask "t2" "agent_b" "payload2" 10 "t" "queued"
                           None None)], self1)).
Proof.
  split; [|split; [|split]].
  - exists (Scheduler.mk "priority" [] []).
    destruct (run_priority calls (Scheduler.mk "priority" [] []) []) as (self1 & Hrun);
      [done..|].
    by exists self1.
  - intros pending Hne.
    destruct (select_priority_some pending Hne) as [[u pending1] Hsel].
    destruct (select_priority_spec _ _ _ Hsel) as (pre & post & Hsplit & -> & Hmax & Hpre).
    by exists u, pre, post.
  - exists (Scheduler.mk "fifo" [] []).
    destruct (run_fifo calls (Scheduler.mk "fifo" [] [])) as (self1 & Hrun); [done|].
    by exists self1.
  - exists (Scheduler.mk "priority" [] []).
    destruct (run_priority three_submissions (Scheduler.mk "priority" [] []) [])
      as (self1 & Hrun); [done..|].
    by exists self1.
Qed.

(** Two pending tasks of equal priority behind one of lower priority. *)
Definition pending_ties : list (Scheduler.Task string) :=
  [Scheduler.mkTask "t1" "agent_a" "payload1" 1 "t" "queued" None None;
   Scheduler.mkTask "t2" "agent_b" "payload2" 7 "t" "queued" None None;
   Scheduler.mkTask "t3" "agent_c" "payload3" 7 "t" "queued" None None].

Lemma next_task_follows_policy_witness :
  pending_ties ≠ []
  ∧ ∃ u pre post,
      Scheduler.select_priority pending_ties = Some (u, pre ++ post)
      ∧ pending_ties = pre ++ u :: post
      ∧ (∀ v, v ∈ pending_ties → Scheduler.priority v ≤ Scheduler.priority u)
      ∧ (∀ v, v ∈ pre → Scheduler.priority v < Scheduler.priority u).
Proof.
  assert (pending_ties ≠ []) as Hne by discriminate.
  split; [exact Hne|].
  exact (proj1 (proj2 (next_task_follows_policy (Any := string) [])) pending_ties Hne).
Defined.

(** ** MemoryManager: long-term values are read back as written *)

Section LongTermMemory.
Import MemoryManager.
Context {Any : Type} (str : string -> Any) (arith : VectorStore.Arith).
Implicit Types (self : t Any) (row : gmap string Any).

(** The long-term table holds [row] under [key]. *)
Definition holds_row self (key : string) row : Prop :=
∃ rows, RelationalStore._tables (_data_relational self) !! "long_term_memory" = Some rows
      ∧ rows !! key = Some row.

Lemma relational_insert_lookup (store : RelationalStore.t Any) name record_id row :
∃ rows, RelationalStore._tables (RelationalStore.insert store name record_id row) !! name
      = Some rows ∧ rows !! record_id = Some row.
Proof.
unfold RelationalStore.insert, RelationalStore.table.
destruct (RelationalStore._tables store !! name) as [rows|]; simpl;
eexists; (split; [apply lookup_insert_eq|apply lookup_insert_eq]).
Qed.

(** Another table, or another record of the same table, is left alone. *)
Lemma relational_insert_other (store : RelationalStore.t Any) name record_id row
name1 record_id1 rows1 row1 :
¬ (name = name1 ∧ record_id = record_id1) →
RelationalStore._tables store !! name1 = Some rows1 → rows1 !! record_id1 = Some row1 →
∃ rows, RelationalStore._tables (RelationalStore.insert store name record_id row) !! name1
      = Some rows ∧ rows !! record_id1 = Some row1.
Proof.
intros Hne Ht Hr. unfold RelationalStore.insert, RelationalStore.table.
destruct (decide (name = name1)) as [->|Hn].
- rewrite Ht. simpl. rewrite lookup_insert_eq. eexists. split; [done|].
rewrite lookup_insert_ne; [done|]. intros ->. by apply Hne.
- destruct (RelationalStore._tables store !! name); simpl;
  rewrite ?lookup_insert_ne by done; by eexists.
Qed.

Lemma relational_delete_other (store : RelationalStore.t Any) name record_id
name1 record_id1 rows1 row1 :
¬ (name = name1 ∧ record_id = record_id1) →
RelationalStore._tables store !! name1 = Some rows1 → rows1 !! record_id1 = Some row1 →
∃ rows, RelationalStore._tables (RelationalStore.delete store name record_id).2 !! name1
      = Some rows ∧ rows !! record_id1 = Some row1.
Proof.
intros Hne Ht Hr. unfold RelationalStore.delete, RelationalStore.table.
destruct (decide (name = name1)) as [->|Hn].
- rewrite Ht. simpl. rewrite lookup_insert_eq. eexists. split; [done|].
rewrite lookup_delete_ne; [done|]. intros ->. by apply Hne.
- destruct (RelationalStore._tables store !! name); simpl;
  rewrite ?lookup_insert_ne by done; by eexists.
Qed.

Lemma relational_get_other (store : RelationalStore.t Any) name record_id name1 rows1 :
RelationalStore._tables store !! name1 = Some rows1 →
RelationalStore._tables (RelationalStore.get store name record_id).2 !! name1
= Some rows1.
Proof.
intros Ht. unfold RelationalStore.get, RelationalStore.table.
destruct (RelationalStore._tables store !! name) eqn:Hn; simpl; [done|].
rewrite lookup_insert_ne; [done|]. intros ->. congruence.
Qed.

Lemma step_holds_row self key row c :
¬ writes key c → holds_row self key row → holds_row (step str arith self c) key row.
Proof.
intros Hw (rows & Ht & Hr). unfold holds_row.
destruct c; simpl in *; try by eexists.
- eapply relational_insert_other; [|done..]. intros [_ ?]. by apply Hw.
- unfold recall_long.
destruct (RelationalStore.get _ _ _) as [record relational] eqn:Hget. simpl.
exists rows. split; [|done].
replace relational with (RelationalStore.get (_data_relational self)
  "long_term_memory" (composite namespace key0)).2 by (by rewrite Hget).
by apply relational_get_other.
- by eapply relational_insert_other.
- exists rows. split; [|done]. by apply relational_get_other.
- by eapply relational_delete_other.
Qed.

Lemma steps_hold_row calls : ∀ self key row,
Forall (λ c, ¬ writes key c) calls → holds_row self key row →
holds_row (foldl (step str arith) self calls) key row.
Proof.
induction calls as [|c rest IH]; intros self key row Hall Hrow; [done|].
apply Forall_cons in Hall as [Hc Hrest]. simpl.
apply IH; [done|]. by apply step_holds_row.
Qed.

Lemma recall_long_row self namespace key row v default_ :
holds_row self (composite namespace key) row → row !! "value" = Some v →
(recall_long self namespace key default_).1 = Py.Ok v.
Proof.
intros (rows & Ht & Hr) Hv. unfold recall_long, RelationalStore.get, RelationalStore.table.
rewrite Ht. simpl. rewrite Hr. rewrite bool_decide_false; [by rewrite Hv|].
intros ->. by rewrite lookup_empty in Hv.
Qed.

(** C8.  After [remember_long ns k v], and after any calls that do not write
  the record stored under the composite key [ns::k], [recall_long ns k]
  returns [v] itself, whatever default is supplied. *)
Theorem recall_long_after_remember_long self (now namespace key : string) (v default_ : Any)
(calls : list (Call Any)) :
Forall (λ c, ¬ writes (composite namespace key) c) calls →
(recall_long (foldl (step str arith) (remember_long str self now namespace key v) calls)
 namespace key default_).1 = Py.Ok v.
Proof.
intros Hcalls.
eapply recall_long_row.
- apply steps_hold_row; [exact Hcalls|].
apply relational_insert_lookup.
- rewrite lookup_insert_ne by done. rewrite lookup_insert_ne by done.
apply lookup_insert_eq.
Qed.

End LongTermMemory.

(** Values for the memory test: a string or a number. *)
Inductive value :=
  | VStr (s : string)
  | VNum (n : Z).

(** Calls on other keys, among them a write to the record of another key and
    a write to the same record id in another table. *)
Definition other_calls : list (MemoryManager.Call value) :=
  [MemoryManager.RememberLong "t1" "research" "doc2" (VNum 2);
   MemoryManager.RememberShort "sess1" "topic" (VStr "privacy");
   MemoryManager.Insert "users" "research::doc1" ∅;
   MemoryManager.Delete "long_term_memory" "research::doc2";
   MemoryManager.RecallLong "research" "doc1" (VNum 0)].

Lemma other_calls_do_not_write :
  Forall (λ c, ¬ MemoryManager.writes (MemoryManager.composite "research" "doc1") c)
    other_calls.
Proof.
  repeat constructor; simpl; try tauto; try discriminate.
  - intros [Hn _]. discriminate Hn.
  - intros [_ Hi]. discriminate Hi.
Defined.

Lemma recall_long_after_remember_long_witness :
  (MemoryManager.recall_long
     (foldl (MemoryManager.step VStr VectorStore.plain)
        (MemoryManager.remember_long VStr MemoryManager.init "t0" "research" "doc1"
           (VStr "GDPR Overview"))
        other_calls)
     "research" "doc1" (VNum 0)).1 = Py.Ok (VStr "GDPR Overview").
Proof.
  apply (recall_long_after_remember_long VStr VectorStore.plain MemoryManager.init "t0" "research" "doc1"
           (VStr "GDPR Overview") (VNum 0) other_calls).
  exact other_calls_do_not_write.
Defined.

(** ** Dictionaries in insertion order *)

Section Dicts.
Context {V : Type}.
Implicit Types (d : list (string * V)) (k : string) (v : V).

Lemma dict_get_set d k v k1 :
FileStore.dict_get (VectorStore.dict_set d k v) k1
= if decide (k = k1) then Some v else FileStore.dict_get d k1.
Proof.
induction d as [|[k0 v0] rest IH]; simpl.
- by destruct (decide (k = k1)).
- destruct (decide (k0 = k)) as [->|Hne]; simpl.
  + by destruct (decide (k = k1)).
  + rewrite IH. destruct (decide (k0 = k1)) as [<-|]; [|done].
    by rewrite decide_False.
Qed.

Lemma dict_get_is_Some d k : is_Some (FileStore.dict_get d k) ↔ k ∈ d.*1.
Proof.
induction d as [|[k0 v0] rest IH]; csimpl.
- split; [by intros [x Hx]|intros Hin; by apply elem_of_nil in Hin].
- destruct (decide (k0 = k)) as [->|Hne].
  + split; [intros _; by left|by eexists].
  + rewrite IH. split; [by right|].
    intros Hin. by apply elem_of_cons in Hin as [->|Hin].
Qed.

Lemma dict_get_elem d k v : NoDup d.*1 → (k, v) ∈ d → FileStore.dict_get d k = Some v.
Proof.
induction d as [|[k0 v0] rest IH]; intros Hnd Hin; [by apply elem_of_nil in Hin|].
csimpl in Hnd. apply NoDup_cons in Hnd as [Hk0 Hnd]. simpl.
apply elem_of_cons in Hin as [[= -> ->]|Hin]; [by rewrite decide_True|].
rewrite decide_False; [by apply IH|].
intros ->. apply Hk0. apply list_elem_of_fmap. by exists (k, v).
Qed.

Lemma dict_set_keys d k v :
(VectorStore.dict_set d k v).*1 = if decide (k ∈ d.*1) then d.*1 else d.*1 ++ [k].
Proof.
induction d as [|[k0 v0] rest IH]; csimpl; [done|].
destruct (decide (k0 = k)) as [->|Hne]; csimpl.
- rewrite decide_True; [done|by left].
- rewrite IH. destruct (decide (k ∈ rest.*1)) as [Hin|Hnin].
  + rewrite decide_True; [done|by right].
  + rewrite decide_False; [done|].
    intros Hin. by apply elem_of_cons in Hin as [->|Hin].
Qed.

Lemma dict_set_NoDup d k v : NoDup d.*1 → NoDup (VectorStore.dict_set d k v).*1.
Proof.
intros Hnd. rewrite dict_set_keys. destruct (decide (k ∈ d.*1)); [done|].
apply NoDup_app. split; [done|]. split; [|apply NoDup_singleton].
intros x Hx Hx'. by apply list_elem_of_singleton in Hx' as ->.
Qed.

Lemma dict_del_key_elem d k k1 : k1 ∈ (VectorStore.dict_del d k).*1 → k1 ∈ d.*1.
Proof.
induction d as [|[k0 v0] rest IH]; csimpl; [done|].
destruct (decide (k0 = k)) as [->|Hne]; csimpl.
- by right.
- intros Hin. apply elem_of_cons in Hin as [->|Hin]; [by left|right; by apply IH].
Qed.

Lemma dict_del_NoDup d k : NoDup d.*1 → NoDup (VectorStore.dict_del d k).*1.
Proof.
induction d as [|[k0 v0] rest IH]; csimpl; [done|].
intros Hnd. apply NoDup_cons in Hnd as [Hk0 Hnd].
destruct (decide (k0 = k)) as [->|Hne]; csimpl; [done|].
apply NoDup_cons. split; [|by apply IH].
intros Hin. by apply Hk0, (dict_del_key_elem rest k).
Qed.

Lemma dict_get_del d k k1 :
NoDup d.*1 →
FileStore.dict_get (VectorStore.dict_del d k) k1
= if decide (k = k1) then None else FileStore.dict_get d k1.
Proof.
induction d as [|[k0 v0] rest IH]; csimpl; intros Hnd.
- by destruct (decide (k = k1)).
- apply NoDup_cons in Hnd as [Hk0 Hnd].
  destruct (decide (k0 = k)) as [->|Hne]; simpl.
  + destruct (decide (k = k1)) as [<-|]; [|done].
    apply eq_None_not_Some. by rewrite dict_get_is_Some.
  + rewrite IH by done. destruct (decide (k0 = k1)) as [<-|]; [|done].
    by rewrite decide_False.
Qed.




End Dicts.

(** ** Floats: the order of the numbers *)


Section FloatOrder.
Import VectorStore.
Implicit Types (s : SpecFloat.spec_float) (x y z : float).













End FloatOrder.

(** ** [sorted(..., reverse=True)] on keys that are ordered only in part *)

Section SortedReverseOn.
Context {A K : Type} (ltb : K -> K -> bool) (key : A -> K) (ok : K -> Prop).
Hypothesis ltb_asym : ∀ a b, ltb a b = true → ltb b a = false.
Hypothesis ltb_negtrans :
∀ a b c, ok b → ltb a b = false → ltb b c = false → ltb a c = false.



End SortedReverseOn.

(** ** VectorStore: scores and ranking *)

Section Ranking.
Import VectorStore.
Context {Any : Type} (arith : Arith).
Implicit Types (self : t Any) (h : Hit Any) (hits : list (Hit Any)).












Lemma index_NoDup (calls : list (Call Any)) : ∀ self,
NoDup (_records self).*1 → NoDup (_records (foldl (step arith) self calls)).*1.
Proof.
induction calls as [|c rest IH]; intros self Hnd; [done|].
simpl. apply IH. destruct c; simpl.
- by apply dict_set_NoDup.
- by apply dict_del_NoDup.
Qed.

Lemma scored_ids self query : map id (scored arith self query) = (_records self).*1.
Proof.
unfold scored. induction (_records self) as [|r rest IH]; csimpl; [done|].
by rewrite IH.
Qed.







End Ranking.

(** The document takes the place of its earlier version, in front of an equal
    one stored after it. *)
Definition replaced_first : list (VectorStore.Call unit) :=
  [VectorStore.Upsert "doc1" "privacy policy" None;
   VectorStore.Upsert "doc2" "data protection" None].



(** * Further properties of the services *)

(** ** RelationalStore: insert, get and delete *)

Section Records.
Import RelationalStore.
Context {Any : Type}.
Implicit Types (store : t Any) (row : gmap string Any).

(** The record stored under a table and an id, without the side effect of
  [get] on the table dictionary. *)
Definition stored store (name record_id : string) : option (gmap string Any) :=
_tables store !! name ≫= (λ rows, rows !! record_id).

Lemma get_stored store name record_id : (get store name record_id).1 = stored store name record_id.
Proof.
unfold get, table, stored. destruct (_tables store !! name) as [rows|]; simpl; [done|].
apply lookup_empty.
Qed.

Lemma get_keeps_stored store name record_id name1 record_id1 :
stored (get store name record_id).2 name1 record_id1 = stored store name1 record_id1.
Proof.
unfold get, table, stored. destruct (_tables store !! name) as [rows|] eqn:Hn; simpl; [done|].
destruct (decide (name = name1)) as [<-|Hne].
- rewrite lookup_insert_eq, Hn. simpl. apply lookup_empty.
- by rewrite lookup_insert_ne.
Qed.

Lemma insert_stored store name record_id row name1 record_id1 :
stored (insert store name record_id row) name1 record_id1
= if decide (name = name1 ∧ record_id = record_id1) then Some row
  else stored store name1 record_id1.
Proof.
unfold insert, table, stored.
destruct (decide (name = name1)) as [<-|Hn].
- destruct (_tables store !! name) as [rows|] eqn:Ht; simpl; rewrite lookup_insert_eq; simpl.
  + destruct (decide (record_id = record_id1)) as [<-|Hi].
    * rewrite lookup_insert_eq. by rewrite decide_True.
    * rewrite lookup_insert_ne by done. rewrite decide_False; [done|]. by intros [_ ?].
  + destruct (decide (record_id = record_id1)) as [<-|Hi].
    * rewrite lookup_insert_eq. by rewrite decide_True.
    * rewrite lookup_insert_ne by done. rewrite decide_False; [|by intros [_ ?]].
      apply lookup_empty.
- rewrite decide_False by (by intros [? _]).
  destruct (_tables store !! name) as [rows|] eqn:Ht; simpl;
    by rewrite ?lookup_insert_ne by done.
Qed.

Lemma delete_stored store name record_id name1 record_id1 :
stored (delete store name record_id).2 name1 record_id1
= if decide (name = name1 ∧ record_id = record_id1) then None
  else stored store name1 record_id1.
Proof.
unfold delete, table, stored.
destruct (decide (name = name1)) as [<-|Hn].
- destruct (_tables store !! name) as [rows|] eqn:Ht; simpl; rewrite lookup_insert_eq; simpl.
  + destruct (decide (record_id = record_id1)) as [<-|Hi].
    * rewrite lookup_delete_eq. by rewrite decide_True.
    * rewrite lookup_delete_ne by done. rewrite decide_False; [done|]. by intros [_ ?].
  + rewrite delete_empty, lookup_empty. by destruct (decide _).
- rewrite decide_False by (by intros [? _]).
  destruct (_tables store !! name) as [rows|] eqn:Ht; simpl;
    by rewrite ?lookup_insert_ne by done.
Qed.

Lemma delete_result store name record_id :
(delete store name record_id).1 = bool_decide (is_Some (stored store name record_id)).
Proof.
unfold delete, table, stored. destruct (_tables store !! name) as [rows|]; simpl; [done|].
rewrite lookup_empty. apply bool_decide_eq_false. by intros [x Hx].
Qed.

(** X1.  [get] returns the record that the last [insert] under the same table
  and id stored, whatever the store held before (an earlier record is
  replaced, an unknown table is created), and reading does not disturb it. *)
Theorem relational_get_after_insert store (name record_id : string) row row0 :
(get (insert store name record_id row) name record_id).1 = Some row
∧ (get (insert (insert store name record_id row0) name record_id row) name record_id).1
  = Some row
∧ (get (get (insert store name record_id row) name record_id).2 name record_id).1
  = Some row.
Proof.
rewrite !get_stored, get_keeps_stored, !insert_stored.
by rewrite !decide_True.
Qed.

(** X2.  [delete] tells whether the record existed: it returns true exactly
  when [get] would have found the record, the record is gone afterwards,
  and a second [delete] returns false. *)
Theorem relational_delete_once store (name record_id : string) :
let '(existed, store1) := delete store name record_id in
(existed = true ↔ is_Some (get store name record_id).1)
∧ (get store1 name record_id).1 = None
∧ (delete store1 name record_id).1 = false.
Proof.
destruct (delete store name record_id) as [existed store1] eqn:Hd.
assert (existed = (delete store name record_id).1) as -> by (by rewrite Hd).
assert (store1 = (delete store name record_id).2) as -> by (by rewrite Hd).
rewrite !get_stored, !delete_result, delete_stored.
rewrite decide_True by done. split; [|split; [done|]].
- apply bool_decide_eq_true.
- apply bool_decide_eq_false. by intros [x Hx].
Qed.

(** X3.  Writes are local: [insert] and [delete] under one table and id leave
  what [get] returns for every other table or id as it was. *)
Theorem relational_other_records_untouched store (name record_id name1 record_id1 : string)
  row :
¬ (name = name1 ∧ record_id = record_id1) →
(get (insert store name record_id row) name1 record_id1).1
= (get store name1 record_id1).1
∧ (get (delete store name record_id).2 name1 record_id1).1
  = (get store name1 record_id1).1.
Proof.
intros Hne. rewrite !get_stored, insert_stored, delete_stored.
by rewrite !decide_False.
Qed.

End Records.

Lemma relational_other_records_untouched_witness :
  (RelationalStore.get
     (RelationalStore.insert (RelationalStore.init (Any := Z)) "users" "u1" {["age" := 30]})
     "users" "u2").1
  = (RelationalStore.get (RelationalStore.init (Any := Z)) "users" "u2").1
  ∧ (RelationalStore.get
       (RelationalStore.delete (RelationalStore.init (Any := Z)) "users" "u1").2
       "users" "u2").1
    = (RelationalStore.get (RelationalStore.init (Any := Z)) "users" "u2").1.
Proof.
  apply (relational_other_records_untouched (RelationalStore.init (Any := Z))
           "users" "u1" "users" "u2" {["age" := 30]}).
  intros [_ Hi]. discriminate Hi.
Defined.

(** ** FileStore: write, read, delete and list *)

Section Files.
Import FileStore.

(** A store reached from the empty one never holds a path twice. *)
Lemma files_NoDup (calls : list Call) : ∀ self,
NoDup (_files self).*1 → NoDup (_files (foldl step self calls)).*1.
Proof.
induction calls as [|c rest IH]; intros self Hnd; [done|].
simpl. apply IH. destruct c; simpl.
- by apply dict_set_NoDup.
- by apply dict_del_NoDup.
Qed.

(** X4.  [read] returns what the last [write] to the path stored, the earlier
  content being replaced, and a write to one path changes no other path. *)
Theorem file_read_after_write (self : t) (path content content0 path1 : string) :
read (write self path content) path = Some content
∧ read (write (write self path content0) path content) path = Some content
∧ (path1 ≠ path → read (write self path content) path1 = read self path1).
Proof.
unfold read, write. simpl. rewrite !dict_get_set, !decide_True by done.
split; [done|]. split; [done|]. intros Hne. by rewrite decide_False.
Qed.

(** X5.  In every store reached from the empty one, [delete] returns true
  exactly when the path could be read, afterwards the path reads as absent
  and is not listed, and every other path reads as before. *)
Theorem file_delete_removes (calls : list Call) (path path1 prefix : string) :
let self := foldl step init calls in
((delete self path).1 = true ↔ is_Some (read self path))
∧ read (delete self path).2 path = None
∧ (path ∉ list_paths (delete self path).2 prefix)
∧ (delete (delete self path).2 path).1 = false
∧ (path1 ≠ path → read (delete self path).2 path1 = read self path1).
Proof.
intros self.
assert (NoDup (_files self).*1) as Hnd by (apply files_NoDup; constructor).
unfold delete, read, list_paths. simpl.
rewrite !dict_get_del by done. rewrite decide_True by done.
split; [apply bool_decide_eq_true|]. split; [done|]. split; [|split].
- intros Hin. apply list_elem_of_filter in Hin as [_ Hin].
  apply dict_get_is_Some in Hin. rewrite dict_get_del in Hin by done.
  rewrite decide_True in Hin by done. by destruct Hin.
- apply bool_decide_eq_false. by intros [x Hx].
- intros Hne. by rewrite decide_False.
Qed.

(** X6.  In every store reached from the empty one, [list_paths prefix] lists
  exactly the paths that can be read and start with [prefix], each once;
  with the empty prefix it lists every stored path. *)
Theorem file_list_paths_exact (calls : list Call) (prefix path : string) :
let self := foldl step init calls in
NoDup (list_paths self prefix)
∧ (path ∈ list_paths self prefix
   ↔ is_Some (read self path) ∧ String.prefix prefix path = true)
∧ (path ∈ list_paths self "" ↔ is_Some (read self path)).
Proof.
intros self.
assert (NoDup (_files self).*1) as Hnd by (apply files_NoDup; constructor).
unfold list_paths, read. split; [by apply NoDup_filter|]. split.
- rewrite list_elem_of_filter, dict_get_is_Some. tauto.
- rewrite list_elem_of_filter, dict_get_is_Some. simpl. destruct path; tauto.
Qed.

End Files.

Lemma file_read_after_write_witness :
  FileStore.read (FileStore.write FileStore.init "reports/a.txt" "alpha") "reports/b.txt"
  = FileStore.read FileStore.init "reports/b.txt".
Proof.
  apply (proj2 (proj2 (file_read_after_write FileStore.init "reports/a.txt" "alpha" ""
                         "reports/b.txt"))).
  discriminate.
Defined.

Lemma file_delete_removes_witness :
  FileStore.read
    (FileStore.delete
       (foldl FileStore.step FileStore.init [FileStore.Write "a" "1"; FileStore.Write "b" "2"])
       "a").2 "b"
  = FileStore.read
      (foldl FileStore.step FileStore.init [FileStore.Write "a" "1"; FileStore.Write "b" "2"])
      "b".
Proof.
  apply (proj2 (proj2 (proj2 (proj2
           (file_delete_removes [FileStore.Write "a" "1"; FileStore.Write "b" "2"]
              "a" "b" ""))))).
  discriminate.
Defined.

(** ** DataLayer: the deployment mode *)

Section Deployment.
Import DataLayer.
Context {Any : Type}.

(** A data layer is constructed exactly for the four deployment modes,
  any other mode raises [ValueError]; and for every data layer that was
  constructed [compute_resources] finds its entry, so that it never raises
  [KeyError]. *)
Theorem data_layer_modes (mode : string) :
(mode ∈ DEPLOYMENT_MODES →
 ∃ layer primary secondary,
   init (Any := Any) mode = Py.Ok layer
   ∧ deployment_mode layer = mode
   ∧ compute_resources layer = Py.Ok (primary, secondary))
∧ (mode ∉ DEPLOYMENT_MODES →
   ∃ msg, init (Any := Any) mode = Py.Raise (Py.ValueError msg))
∧ (∀ layer, init (Any := Any) mode = Py.Ok layer →
     ∃ resources, compute_resources layer = Py.Ok resources).
Proof.
assert (mode ∈ DEPLOYMENT_MODES →
        ∃ r, FileStore.dict_get resources mode = Some r) as Hfind.
{ intros Hin. unfold DEPLOYMENT_MODES in Hin.
  repeat (apply elem_of_cons in Hin as [->|Hin]; [by eexists|]).
  by apply elem_of_nil in Hin. }
split; [|split].
- intros Hin. destruct (Hfind Hin) as [[primary secondary] Hr].
  unfold init. rewrite bool_decide_true by done.
  eexists _, primary, secondary. split; [done|]. split; [done|].
  unfold compute_resources. cbn [deployment_mode]. by rewrite Hr.
- intros Hnin. unfold init. rewrite bool_decide_false by done. by eexists.
- intros layer. unfold init. case_bool_decide as Hin; [|done].
  intros [= <-]. destruct (Hfind Hin) as [r Hr].
  exists r. unfold compute_resources. cbn [deployment_mode]. by rewrite Hr.
Qed.

End Deployment.

Lemma data_layer_modes_witness :
  ∃ layer primary secondary,
    DataLayer.init (Any := Z) "hybrid" = Py.Ok layer
    ∧ DataLayer.deployment_mode layer = "hybrid"
    ∧ DataLayer.compute_resources layer = Py.Ok (primary, secondary).
Proof.
  apply (proj1 (data_layer_modes (Any := Z) "hybrid")).
  unfold DataLayer.DEPLOYMENT_MODES. do 3 right. left.
Defined.

(** ** Scheduler: what the queue keeps *)

Section Queue.
Import Scheduler.
Context {Any : Type}.
Implicit Types (u v : Task Any) (self : t Any).

(** The tasks that the [submit] calls of a run create, in order. *)
Definition submitted (calls : list (Call Any)) : list (Task Any) :=
omap (λ c, match c with
           | Submit now i a p n => Some (mkTask i a p n now "queued" None None)
           | NextTask => None
           end) calls.

(** The tasks that the [next_task] calls of a run returned. *)
Definition returned (outs : list (option (Task Any))) : list (Task Any) :=
omap (λ o, o) outs.

(** [next_task] takes exactly one task out of a non-empty queue, under
  every policy: it returns a queued task, the tasks left are the other
  queued tasks, the completed log and the policy stay as they are; on an
  empty queue it returns nothing and changes nothing.  It never raises. *)
Theorem next_task_takes_one self :
(_queue self = [] → next_task self = Py.Ok (None, self))
∧ (_queue self ≠ [] →
   ∃ u self1,
     next_task self = Py.Ok (Some u, self1)
     ∧ u :: _queue self1 ≡ₚ _queue self
     ∧ S (queue_length self1) = queue_length self
     ∧ _completed self1 = _completed self
     ∧ policy self1 = policy self).
Proof.
split; [apply next_task_empty|]. intros Hne.
destruct (decide (policy self = "priority")) as [Hpol|Hpol].
- destruct (next_task_sorts self Hpol Hne) as (u & rest & Hs & Hnext).
  exists u, (mk (policy self) rest (_completed self)). split; [done|].
  assert (u :: rest ≡ₚ _queue self) as Hperm
    by (rewrite <- Hs; apply sorted_reverse_perm).
  split; [done|]. split; [|done].
  unfold queue_length. simpl. by rewrite <- Hperm.
- destruct (_queue self) as [|u rest] eqn:Hq; [done|].
  exists u, (mk (policy self) rest (_completed self)).
  split; [by apply next_task_pops|]. split; [done|].
  split; [|done]. unfold queue_length. by rewrite Hq.
Qed.

Lemma run_conserves calls : ∀ self,
∃ outs self1,
  run self calls = Py.Ok (outs, self1)
  ∧ _queue self ++ submitted calls ≡ₚ returned outs ++ _queue self1
  ∧ policy self1 = policy self.
Proof.
induction calls as [|[now i a x n|] rest IH]; intros self; simpl.
- exists [], self. split; [done|]. split; [|done]. by rewrite app_nil_r.
- destruct (IH (submit self now i a x n).2) as (outs & self1 & Hrun & Hperm & Hpol).
  exists outs, self1. split; [done|]. split; [|done].
  rewrite <- Hperm. simpl. unfold submitted. simpl. by rewrite <- app_assoc.
- destruct (decide (_queue self = [])) as [Hq|Hq].
  + rewrite (next_task_empty _ Hq). simpl.
    destruct (IH self) as (outs & self1 & Hrun & Hperm & Hpol).
    exists (None :: outs), self1. rewrite Hrun. simpl. done.
  + destruct (proj2 (next_task_takes_one self) Hq)
      as (u & self0 & Hnext & Hu & _ & _ & Hpol0).
    rewrite Hnext. simpl.
    destruct (IH self0) as (outs & self1 & Hrun & Hperm & Hpol).
    exists (Some u :: outs), self1. rewrite Hrun. simpl.
    split; [done|]. split; [|congruence].
    unfold returned in *. simpl. rewrite <- Hperm, <- Hu. done.
Qed.

(** X7.  No task is lost or duplicated: for each of the three policies and
  every sequence of [submit] and [next_task] calls on a fresh scheduler, the
  run ends without an exception and the tasks submitted are exactly the
  tasks returned together with the tasks still queued. *)
Theorem scheduler_conserves_tasks (policy_name : string) (calls : list (Call Any)) :
policy_name ∈ ["fifo"; "priority"; "round_robin"] →
∃ self outs self1,
  init policy_name = Py.Ok self
  ∧ run self calls = Py.Ok (outs, self1)
  ∧ submitted calls ≡ₚ returned outs ++ _queue self1
  ∧ length (submitted calls) = (length (returned outs) + queue_length self1)%nat.
Proof.
intros Hin. exists (mk policy_name [] []).
destruct (run_conserves calls (mk policy_name [] [])) as (outs & self1 & Hrun & Hperm & _).
exists outs, self1. unfold init. rewrite bool_decide_true by done.
simpl in Hperm. split; [done|]. split; [done|]. split; [done|].
unfold queue_length. by rewrite Hperm, length_app.
Qed.

Lemma run_same_queue calls : ∀ self1 self2,
policy self1 ≠ "priority" → policy self2 ≠ "priority" →
_queue self1 = _queue self2 →
∃ outs end1 end2,
  run self1 calls = Py.Ok (outs, end1) ∧ run self2 calls = Py.Ok (outs, end2)
  ∧ _queue end1 = _queue end2.
Proof.
induction calls as [|[now i a x n|] rest IH]; intros self1 self2 Hp1 Hp2 Hq; simpl.
- by exists [], self1, self2.
- apply IH; simpl; [done..|]. by rewrite Hq.
- destruct (_queue self1) as [|u q] eqn:Hq1.
  + rewrite (next_task_empty self1 Hq1), (next_task_empty self2 (eq_sym Hq)). simpl.
    destruct (IH self1 self2 Hp1 Hp2) as (outs & end1 & end2 & Hr1 & Hr2 & Hend);
      [congruence|].
    exists (None :: outs), end1, end2. by rewrite Hr1, Hr2.
  + rewrite (next_task_pops self1 u q Hp1 Hq1), (next_task_pops self2 u q Hp2 (eq_sym Hq)).
    simpl.
    destruct (IH (mk (policy self1) q (_completed self1))
                (mk (policy self2) q (_completed self2)) Hp1 Hp2 eq_refl)
      as (outs & end1 & end2 & Hr1 & Hr2 & Hend).
    exists (Some u :: outs), end1, end2. by rewrite Hr1, Hr2.
Qed.

(** X8.  The "round_robin" policy is served first-in first-out: on every
  sequence of calls a round-robin scheduler returns the same tasks in the
  same order as a "fifo" scheduler and is left with the same queue; the
  agent names of the tasks play no part. *)
Theorem round_robin_is_fifo (calls : list (Call Any)) :
∃ rr ff outs rr1 ff1,
  init "round_robin" = Py.Ok rr ∧ init "fifo" = Py.Ok ff
  ∧ run rr calls = Py.Ok (outs, rr1) ∧ run ff calls = Py.Ok (outs, ff1)
  ∧ outs = expected select_fifo [] calls
  ∧ _queue rr1 = _queue ff1.
Proof.
exists (mk "round_robin" [] []), (mk "fifo" [] []).
destruct (run_same_queue calls (mk "round_robin" [] []) (mk "fifo" [] []))
  as (outs & rr1 & ff1 & Hr & Hf & Hq); [done..|].
exists outs, rr1, ff1. repeat (split; [done|]). split; [|done].
destruct (run_fifo calls (mk "fifo" [] [])) as (ff2 & Hf2); [done|].
rewrite Hf in Hf2. by injection Hf2.
Qed.

(** X9.  Submitting a task and asking for the next one at once, as the
  eager dispatch does: on an empty queue the submitted task comes back and
  the queue is empty again, under every policy; on a non-empty queue served
  first-in first-out the oldest queued task comes back instead and the
  submitted task stays queued behind the others. *)
Theorem submit_then_next self (now task_id agent_name : string) (payload : Any)
  (priority : Z) :
let task := mkTask task_id agent_name payload priority now "queued" None None in
let self1 := (submit self now task_id agent_name payload priority).2 in
(_queue self = [] →
 next_task self1 = Py.Ok (Some task, mk (policy self) [] (_completed self)))
∧ (∀ u rest, policy self ≠ "priority" → _queue self = u :: rest →
     next_task self1
     = Py.Ok (Some u, mk (policy self) (rest ++ [task]) (_completed self))).
Proof.
intros task self1. split.
- intros Hq. unfold next_task, self1, submit. simpl. rewrite Hq. simpl.
  by destruct (bool_decide (policy self = "priority")).
- intros u rest Hpol Hq.
  rewrite (next_task_pops self1 u (rest ++ [task])); [done|done|].
  unfold self1. simpl. by rewrite Hq.
Qed.

End Queue.

Lemma next_task_takes_one_witness :
  ∃ u self1,
    Scheduler.next_task (Scheduler.mk "priority" pending_ties []) = Py.Ok (Some u, self1)
    ∧ u :: Scheduler._queue self1 ≡ₚ pending_ties
    ∧ S (Scheduler.queue_length self1) = 3%nat
    ∧ Scheduler._completed self1 = []
    ∧ Scheduler.policy self1 = "priority".
Proof.
  apply (proj2 (next_task_takes_one (Scheduler.mk "priority" pending_ties []))).
  discriminate.
Defined.

Lemma scheduler_conserves_tasks_witness :
  ∃ self outs self1,
    Scheduler.init "round_robin" = Py.Ok self
    ∧ Scheduler.run self three_submissions = Py.Ok (outs, self1)
    ∧ submitted three_submissions ≡ₚ returned outs ++ Scheduler._queue self1
    ∧ length (submitted three_submissions)
      = (length (returned outs) + Scheduler.queue_length self1)%nat.
Proof.
  apply (scheduler_conserves_tasks "round_robin" three_submissions).
  do 2 right. left.
Defined.

Lemma submit_then_next_witness :
  Scheduler.next_task
    (Scheduler.submit (Scheduler.mk "fifo" pending_ties []) "t" "t4" "agent_d" "payload4" 9).2
  = Py.Ok (Some (Scheduler.mkTask "t1" "agent_a" "payload1" 1 "t" "queued" None None),
           Scheduler.mk "fifo"
             ([Scheduler.mkTask "t2" "agent_b" "payload2" 7 "t" "queued" None None;
               Scheduler.mkTask "t3" "agent_c" "payload3" 7 "t" "queued" None None]
              ++ [Scheduler.mkTask "t4" "agent_d" "payload4" 9 "t" "queued" None None])
             []).
Proof.
  apply (proj2 (submit_then_next (Scheduler.mk "fifo" pending_ties []) "t" "t4" "agent_d"
                  "payload4" 9)).
  - discriminate.
  - reflexivity.
Defined.

(** ** ContextManager: clearing, activity and isolation of sessions *)

Section Sessions.
Import ContextManager.

(** What a session holds; a session that was never touched holds nothing. *)
Definition held (self : t) (session_id : string) : list Entry :=
default [] (_sessions self !! session_id).

Lemma session_ok self session_id :
0 ≤ window_size self →
∃ self1, session self session_id = Py.Ok (held self session_id, self1)
         ∧ window_size self1 = window_size self
         ∧ ∀ sid, held self1 sid = held self sid.
Proof.
intros HW. unfold session, held.
destruct (_sessions self !! session_id) as [d|] eqn:Hd; simpl.
- by exists self.
- rewrite (proj2 (Z.ltb_ge _ _)) by lia. eexists. split; [done|]. split; [done|].
  intros sid. simpl. destruct (decide (session_id = sid)) as [<-|Hne].
  + by rewrite lookup_insert_eq, Hd.
  + by rewrite lookup_insert_ne.
Qed.

Lemma get_context_held self session_id :
0 ≤ window_size self →
∃ self1, get_context self session_id = Py.Ok (held self session_id, self1).
Proof.
intros HW. destruct (session_ok self session_id HW) as (self1 & Hs & _). by exists self1.
Qed.

Lemma push_held self now session_id role content :
0 ≤ window_size self →
∃ self1, push self now session_id role content = Py.Ok self1
         ∧ window_size self1 = window_size self
         ∧ held self1 session_id
           = Py.deque_append (window_size self) (held self session_id)
               (mkEntry role content now)
         ∧ ∀ sid, sid ≠ session_id → held self1 sid = held self sid.
Proof.
intros HW. destruct (session_ok self session_id HW) as (self0 & Hs & Hw & Hheld).
unfold push. rewrite Hs. simpl. eexists. split; [done|]. split; [done|]. split.
- unfold held at 1. simpl. by rewrite lookup_insert_eq, Hw.
- intros sid Hne. unfold held at 1. simpl. rewrite lookup_insert_ne by done. apply Hheld.
Qed.

Lemma active_sessions_held self session_id :
session_id ∈ active_sessions self ↔ held self session_id ≠ [].
Proof.
unfold active_sessions, held. rewrite list_elem_of_fmap. split.
- intros ([sid d] & -> & Hin). apply elem_of_map_to_list in Hin.
  apply map_lookup_filter_Some in Hin as [Hd Hne]. simpl in *. by rewrite Hd.
- intros Hne. destruct (_sessions self !! session_id) as [d|] eqn:Hd; [|done].
  exists (session_id, d). split; [done|]. apply elem_of_map_to_list.
  by apply map_lookup_filter_Some.
Qed.

(** X10.  [clear] empties the window of its session and of no other: the
  session then reads as empty and is not listed as active, while every
  other session holds what it held. *)
Theorem clear_empties_one_session (self : t) (session_id : string) :
0 ≤ window_size self →
∃ self1 self2,
  clear self session_id = Py.Ok self1
  ∧ get_context self1 session_id = Py.Ok ([], self2)
  ∧ (session_id ∉ active_sessions self1)
  ∧ (∀ sid, sid ≠ session_id → held self1 sid = held self sid)
  ∧ ∀ sid, sid ≠ session_id → sid ∈ active_sessions self1 ↔ sid ∈ active_sessions self.
Proof.
intros HW. destruct (session_ok self session_id HW) as (self0 & Hs & Hw & Hheld).
unfold clear. rewrite Hs. simpl.
set (self1 := mk (window_size self0) (<[session_id:=[]]> (_sessions self0))).
assert (held self1 session_id = []) as Hempty
  by (unfold held, self1; simpl; by rewrite lookup_insert_eq).
assert (∀ sid, sid ≠ session_id → held self1 sid = held self sid) as Hother.
{ intros sid Hne. unfold held at 1, self1. simpl.
  rewrite lookup_insert_ne by done. apply Hheld. }
destruct (get_context_held self1 session_id) as (self2 & Hget); [simpl; lia|].
exists self1, self2. split; [done|]. split; [by rewrite Hget, Hempty|].
split; [rewrite active_sessions_held, Hempty; intros Hne; by apply Hne|].
split; [done|].
intros sid Hne. by rewrite !active_sessions_held, Hother.
Qed.

(** X11.  After a run of pushes on a fresh manager a session is listed as
  active exactly when the window size is positive and something was pushed
  to it; with window size 0 no session is ever active. *)
Theorem active_sessions_after_pushes (W : Z) (calls : list Push) (session_id : string) :
0 ≤ W →
∃ self, push_all (init W) calls = Py.Ok self
        ∧ (session_id ∈ active_sessions self
           ↔ 0 < W ∧ pushed_to session_id calls ≠ []).
Proof.
intros HW.
destruct (push_all_holds_last W calls (init W) [] HW (init_holds_last W))
  as (self & Hrun & _ & Hheld).
exists self. split; [done|]. rewrite active_sessions_held. unfold held.
rewrite (Hheld session_id). simpl. unfold last_n.
set (l := pushed_to session_id calls). split.
- intros Hne. destruct (decide (W = 0)) as [->|]; [|split; [lia|]].
  + simpl in Hne. by rewrite Nat.sub_0_r, drop_all in Hne.
  + intros Hl. by rewrite Hl in Hne.
- intros [Hpos Hl] Hdrop. apply (f_equal length) in Hdrop.
  rewrite length_drop in Hdrop. simpl in Hdrop.
  destruct l; [done|]. simpl in Hdrop. lia.
Qed.

(** Sessions are isolated: a [push] to one session appends the entry to
  that session's window (dropping its oldest entry when the window is
  full) and leaves what every other session holds unchanged, whatever the
  manager held before. *)
Theorem push_touches_one_session (self : t) (now session_id role content : string) :
0 ≤ window_size self →
∃ self1 self2,
  push self now session_id role content = Py.Ok self1
  ∧ get_context self1 session_id
    = Py.Ok (Py.deque_append (window_size self) (held self session_id)
               (mkEntry role content now), self2)
  ∧ ∀ sid, sid ≠ session_id →
      ∃ self3 self4, get_context self1 sid = Py.Ok (held self sid, self3)
                     ∧ get_context self sid = Py.Ok (held self sid, self4).
Proof.
intros HW.
destruct (push_held self now session_id role content HW) as (self1 & Hp & Hw & Hs & Ho).
destruct (get_context_held self1 session_id) as (self2 & Hget); [lia|].
exists self1, self2. split; [done|]. split; [by rewrite Hget, Hs|].
intros sid Hne.
destruct (get_context_held self1 sid) as (self3 & Hget3); [lia|].
destruct (get_context_held self sid) as (self4 & Hget4); [lia|].
exists self3, self4. by rewrite Hget3, Hget4, Ho.
Qed.

End Sessions.

Lemma clear_empties_one_session_witness :
  ∃ self1 self2,
    ContextManager.clear (ContextManager.init 3) "sess1" = Py.Ok self1
    ∧ ContextManager.get_context self1 "sess1" = Py.Ok ([], self2)
    ∧ ("sess1" ∉ ContextManager.active_sessions self1)
    ∧ (∀ sid, sid ≠ "sess1" → held self1 sid = held (ContextManager.init 3) sid)
    ∧ ∀ sid, sid ≠ "sess1" →
        sid ∈ ContextManager.active_sessions self1
        ↔ sid ∈ ContextManager.active_sessions (ContextManager.init 3).
Proof.
  apply (clear_empties_one_session (ContextManager.init 3) "sess1"). simpl. lia.
Defined.

Lemma active_sessions_after_pushes_witness :
  ∃ self, ContextManager.push_all (ContextManager.init 0) four_pushes = Py.Ok self
          ∧ ("sess1" ∈ ContextManager.active_sessions self
             ↔ 0 < 0 ∧ ContextManager.pushed_to "sess1" four_pushes ≠ []).
Proof.
  apply (active_sessions_after_pushes 0 four_pushes "sess1"). lia.
Defined.

Lemma push_touches_one_session_witness :
  ∃ self1 self2,
    ContextManager.push (ContextManager.init 3) "t1" "sess1" "user" "hello" = Py.Ok self1
    ∧ ContextManager.get_context self1 "sess1"
      = Py.Ok (Py.deque_append 3 (held (ContextManager.init 3) "sess1")
                 (ContextManager.mkEntry "user" "hello" "t1"), self2)
    ∧ ∀ sid, sid ≠ "sess1" →
        ∃ self3 self4,
          ContextManager.get_context self1 sid
          = Py.Ok (held (ContextManager.init 3) sid, self3)
          ∧ ContextManager.get_context (ContextManager.init 3) sid
            = Py.Ok (held (ContextManager.init 3) sid, self4).
Proof.
  apply (push_touches_one_session (ContextManager.init 3) "t1" "sess1" "user" "hello").
  simpl. lia.
Defined.

(** ** MemoryManager: short-term memory and the keys of long-term memory *)

Lemma str_app_assoc (a b c : string) : (a +:+ b) +:+ c = a +:+ (b +:+ c).
Proof.
  induction a as [|x a IH]; [done|].
  change (String x ((a +:+ b) +:+ c) = String x (a +:+ (b +:+ c))). by f_equal.
Qed.

Lemma str_app_length (a b : string) :
  String.length (a +:+ b) = (String.length a + String.length b)%nat.
Proof.
  induction a as [|x a IH]; [done|].
  change (S (String.length (a +:+ b)) = S (String.length a + String.length b)).
  by f_equal.
Qed.

Section Memories.
Import MemoryManager.
Context {Any : Type} (str : string -> Any) (arith : VectorStore.Arith).
Implicit Types (self : t Any).

(** The value remembered for a session and a key, if any. *)
Definition remembered self (session_id key : string) : option Any :=
_short_term self !! session_id ≫= (λ session, session !! key).

Lemma recall_short_remembered self session_id key default_ :
(recall_short self session_id key default_).1
= default default_ (remembered self session_id key).
Proof.
unfold recall_short, remembered. simpl.
destruct (_short_term self !! session_id) as [session|]; simpl; [done|].
by rewrite lookup_empty.
Qed.

Lemma recall_short_keeps self session_id key default_ session_id1 key1 :
remembered (recall_short self session_id key default_).2 session_id1 key1
= remembered self session_id1 key1.
Proof.
unfold recall_short, remembered. simpl.
destruct (decide (session_id = session_id1)) as [<-|Hne].
- rewrite lookup_insert_eq. simpl.
  destruct (_short_term self !! session_id) as [session|]; simpl; [done|].
  apply lookup_empty.
- by rewrite lookup_insert_ne.
Qed.

Lemma remember_short_remembered self session_id key value session_id1 key1 :
remembered (remember_short self session_id key value) session_id1 key1
= if decide (session_id = session_id1 ∧ key = key1) then Some value
  else remembered self session_id1 key1.
Proof.
unfold remember_short, remembered. simpl.
destruct (decide (session_id = session_id1)) as [<-|Hs].
- rewrite lookup_insert_eq. simpl. destruct (decide (key = key1)) as [<-|Hk].
  + rewrite lookup_insert_eq. by rewrite decide_True.
  + rewrite lookup_insert_ne by done. rewrite decide_False by (by intros [_ ?]).
    destruct (_short_term self !! session_id) as [session|]; simpl; [done|].
    apply lookup_empty.
- rewrite lookup_insert_ne by done. by rewrite decide_False by (by intros [? _]).
Qed.

Lemma forget_short_remembered self session_id session_id1 key1 :
remembered (forget_short self session_id) session_id1 key1
= if decide (session_id = session_id1) then None else remembered self session_id1 key1.
Proof.
unfold forget_short, remembered. simpl.
destruct (decide (session_id = session_id1)) as [<-|Hs].
- by rewrite lookup_delete_eq.
- by rewrite lookup_delete_ne.
Qed.

(** X12.  Short-term memory reads back what was remembered: [recall_short]
  returns the last value remembered under the session and key, the default
  when nothing was remembered, and a value remembered under one session
  and key is not seen under any other; reading changes no later read. *)
Theorem recall_short_after_remember_short self (session_id key session_id1 key1 : string)
  (value default_ default1 : Any) :
(recall_short (remember_short self session_id key value) session_id key default_).1 = value
∧ (recall_short (init (Any := Any)) session_id key default_).1 = default_
∧ (¬ (session_id = session_id1 ∧ key = key1) →
   (recall_short (remember_short self session_id key value) session_id1 key1 default_).1
   = (recall_short self session_id1 key1 default_).1)
∧ (recall_short (recall_short self session_id1 key1 default1).2 session_id key default_).1
  = (recall_short self session_id key default_).1.
Proof.
rewrite !recall_short_remembered, recall_short_keeps, !remember_short_remembered.
rewrite decide_True by done. split; [done|]. split; [done|]. split; [|done].
intros Hne. by rewrite decide_False.
Qed.

(** What [recall_long] returns, read off the stored record. *)
Lemma recall_long_stored self namespace key default_ :
(recall_long self namespace key default_).1
= match stored (_data_relational self) "long_term_memory" (composite namespace key) with
  | Some r =>
      if bool_decide (r = ∅) then Py.Ok default_
      else match r !! "value" with
           | Some v => Py.Ok v
           | None => Py.Raise (Py.KeyError "value")
           end
  | None => Py.Ok default_
  end.
Proof.
unfold recall_long.
destruct (RelationalStore.get _ _ _) as [record relational] eqn:Hget. simpl.
assert (record = (RelationalStore.get (_data_relational self) "long_term_memory"
                    (composite namespace key)).1) as -> by (by rewrite Hget).
by rewrite get_stored.
Qed.

(** X13.  [forget_short] forgets a whole session and nothing else: every key
  of the session then reads as the default, the other sessions read as
  before, and long-term memory is not touched. *)
Theorem forget_short_forgets_session self (session_id key session_id1 namespace : string)
  (default_ : Any) :
(recall_short (forget_short self session_id) session_id key default_).1 = default_
∧ (session_id1 ≠ session_id →
   (recall_short (forget_short self session_id) session_id1 key default_).1
   = (recall_short self session_id1 key default_).1)
∧ (recall_long (forget_short self session_id) namespace key default_).1
  = (recall_long self namespace key default_).1.
Proof.
rewrite !recall_short_remembered, !forget_short_remembered, !recall_long_stored.
rewrite decide_True by done. split; [done|]. split; [|done].
intros Hne. by rewrite decide_False.
Qed.

Lemma step_keeps_absent self key c :
¬ writes key c →
stored (_data_relational self) "long_term_memory" key = None →
stored (_data_relational (step str arith self c)) "long_term_memory" key = None.
Proof.
intros Hw Hnone. destruct c; simpl in *; try done.
- rewrite insert_stored. rewrite decide_False; [done|]. intros [_ ?]. by apply Hw.
- unfold recall_long.
  destruct (RelationalStore.get _ _ _) as [record relational] eqn:Hget. simpl.
  assert (relational = (RelationalStore.get (_data_relational self) "long_term_memory"
                          (composite namespace key0)).2) as -> by (by rewrite Hget).
  by rewrite get_keeps_stored.
- rewrite insert_stored. by rewrite decide_False.
- by rewrite get_keeps_stored.
- rewrite delete_stored. by destruct (decide _).
Qed.

(** X14.  A key that was never written reads as the default: on a fresh
  manager, after any calls none of which writes the record of the key,
  [recall_long] returns the caller's default without raising; and so it
  does once the record was deleted from the relational store. *)
Theorem recall_long_default self (namespace key : string) (default_ : Any)
  (calls : list (Call Any)) :
(Forall (λ c, ¬ writes (composite namespace key) c) calls →
 (recall_long (foldl (step str arith) init calls) namespace key default_).1 = Py.Ok default_)
∧ (recall_long (step str arith self (Delete "long_term_memory" (composite namespace key)))
     namespace key default_).1 = Py.Ok default_.
Proof.
split.
- intros Hcalls. rewrite recall_long_stored.
  assert (∀ start,
            stored (_data_relational start) "long_term_memory" (composite namespace key)
            = None →
            stored (_data_relational (foldl (step str arith) start calls)) "long_term_memory"
              (composite namespace key) = None) as Hkeep.
  { induction Hcalls as [|c rest Hc Hrest IH]; intros start Hs; [done|].
    simpl. apply IH. by apply step_keeps_absent. }
  by rewrite Hkeep.
- rewrite recall_long_stored. simpl. rewrite delete_stored. by rewrite decide_True.
Qed.

(** X15.  The composite key joins namespace and key with "::" and nothing
  keeps the two apart: a value written under namespace [ns::a] and key [b]
  is read back under namespace [ns] and key [a::b], the two records being
  one. *)
Theorem long_term_keys_collide self (now ns a b : string) (value default_ : Any) :
composite (ns +:+ "::" +:+ a) b = composite ns (a +:+ "::" +:+ b)
∧ (recall_long (remember_long str self now (ns +:+ "::" +:+ a) b value)
     ns (a +:+ "::" +:+ b) default_).1 = Py.Ok value.
Proof.
assert (composite (ns +:+ "::" +:+ a) b = composite ns (a +:+ "::" +:+ b)) as Hkey.
{ unfold composite. by rewrite !str_app_assoc. }
split; [done|]. rewrite recall_long_stored, <- Hkey. simpl.
rewrite insert_stored, decide_True by done.
rewrite bool_decide_false.
- rewrite lookup_insert_ne by done. rewrite lookup_insert_ne by done.
  by rewrite lookup_insert_eq.
- intros Hempty. apply (f_equal (λ m, m !! "namespace")) in Hempty.
  by rewrite lookup_insert_eq, lookup_empty in Hempty.
Qed.

End Memories.

Lemma recall_short_after_remember_short_witness :
  (MemoryManager.recall_short
     (MemoryManager.remember_short MemoryManager.init "sess1" "topic" (VStr "privacy"))
     "sess2" "topic" (VNum 0)).1
  = (MemoryManager.recall_short MemoryManager.init "sess2" "topic" (VNum 0)).1.
Proof.
  apply (proj1 (proj2 (proj2
           (recall_short_after_remember_short MemoryManager.init "sess1" "topic" "sess2"
              "topic" (VStr "privacy") (VNum 0) (VNum 0))))).
  intros [Hs _]. discriminate Hs.
Defined.

Lemma forget_short_forgets_session_witness :
  (MemoryManager.recall_short
     (MemoryManager.forget_short
        (MemoryManager.remember_short MemoryManager.init "sess2" "topic" (VStr "privacy"))
        "sess1")
     "sess2" "topic" (VNum 0)).1
  = (MemoryManager.recall_short
       (MemoryManager.remember_short MemoryManager.init "sess2" "topic" (VStr "privacy"))
       "sess2" "topic" (VNum 0)).1.
Proof.
  apply (proj1 (proj2
           (forget_short_forgets_session
              (MemoryManager.remember_short MemoryManager.init "sess2" "topic" (VStr "privacy"))
              "sess1" "topic" "sess2" "research" (VNum 0)))).
  discriminate.
Defined.

Lemma recall_long_default_witness :
  (MemoryManager.recall_long
     (foldl (MemoryManager.step VStr VectorStore.plain) MemoryManager.init other_calls)
     "research" "doc1" (VNum 0)).1 = Py.Ok (VNum 0).
Proof.
  apply (proj1 (recall_long_default VStr VectorStore.plain MemoryManager.init "research" "doc1" (VNum 0)
                  other_calls)).
  exact other_calls_do_not_write.
Defined.

(** ** LLMCore: registrations, the default provider and the mock *)

Section Providers.
Import LLMCore.
Context {Options World : Type}.
Implicit Types (self : t Options World) (h : Handler Options World).

(** A [register_provider] call: name, handler and [set_default]. *)
Definition Registration : Type := string * Handler Options World * bool.

Definition register_all self (regs : list Registration) : t Options World :=
foldl (λ self r, register_provider self r.1.1 r.1.2 r.2) self regs.

Lemma register_all_app self regs1 regs2 :
register_all self (regs1 ++ regs2) = register_all (register_all self regs1) regs2.
Proof. apply foldl_app. Qed.

(** Registrations that do not ask to be the default keep a default that is
  set. *)
Lemma register_all_keeps_default regs : ∀ self d,
_default_provider self = Some d → Forall (λ r : Registration, r.2 = false) regs →
_default_provider (register_all self regs) = Some d.
Proof.
induction regs as [|[[n h] b] rest IH]; intros self d Hd Hall; [done|].
apply Forall_cons in Hall as [Hb Hrest]. simpl in Hb. subst b.
simpl. apply IH; [|done]. simpl. by rewrite Hd.
Qed.

(** A later registration under another name keeps the handler of a name. *)
Lemma register_all_keeps_handler regs : ∀ self n h,
_providers self !! n = Some h → n ∉ regs.*1.*1 →
_providers (register_all self regs) !! n = Some h.
Proof.
induction regs as [|[[n1 h1] b] rest IH]; intros self n h Hh Hn; [done|].
csimpl in Hn. apply not_elem_of_cons in Hn as [Hne Hn].
simpl. apply IH; [|done]. simpl. by rewrite lookup_insert_ne.
Qed.

Lemma register_all_default_registered regs : ∀ self,
(∀ d, _default_provider self = Some d → is_Some (_providers self !! d)) →
∀ d, _default_provider (register_all self regs) = Some d →
     is_Some (_providers (register_all self regs) !! d).
Proof.
induction regs as [|[[n h] b] rest IH]; intros self Hinv; [done|].
simpl. apply IH. simpl. intros d Hd.
destruct (decide (n = d)) as [->|Hne]; [by rewrite lookup_insert_eq|].
rewrite lookup_insert_ne by done. apply Hinv.
destruct (b || bool_decide (_default_provider self = None)); [congruence|done].
Qed.

Lemma register_all_default_set regs : ∀ self d,
_default_provider self = Some d → _default_provider (register_all self regs) ≠ None.
Proof.
induction regs as [|[[n h] b] rest IH]; intros self d Hd; simpl; [by rewrite Hd|].
destruct (b || bool_decide (_default_provider self = None)) eqn:Hb.
- apply (IH _ n). simpl. by rewrite Hb.
- apply (IH _ d). simpl. by rewrite Hb.
Qed.

Lemma register_all_default_none regs :
_default_provider (register_all init regs) = None → regs = [].
Proof.
destruct regs as [|[[n h] b] rest]; [done|]. intros Hnone. exfalso. revert Hnone. simpl.
apply (register_all_default_set rest _ n). simpl. by rewrite orb_true_r.
Qed.

Lemma register_all_default_nonempty regs : ∀ self,
Forall (λ r : Registration, r.1.1 ≠ "") regs →
_default_provider self ≠ Some "" →
_default_provider (register_all self regs) ≠ Some "".
Proof.
induction regs as [|[[n h] b] rest IH]; intros self Hall Hs; [done|].
apply Forall_cons in Hall as [Hn Hall]. simpl in Hn. simpl.
apply IH; [done|]. simpl.
destruct (b || bool_decide (_default_provider self = None)); [congruence|done].
Qed.

(** X16.  Which provider is the default after a series of registrations on a
  fresh gateway: none when nothing was registered; the first one
  registered when no registration asked for it; otherwise the last one
  that asked for it.  The default is always a registered provider. *)
Theorem default_provider_after_registrations (regs pre post : list Registration)
  (n : string) h (b : bool) :
(_default_provider (register_all init regs) = None ↔ regs = [])
∧ (regs = (n, h, b) :: post → Forall (λ r : Registration, r.2 = false) post →
   _default_provider (register_all init regs) = Some n)
∧ (regs = pre ++ (n, h, true) :: post → Forall (λ r : Registration, r.2 = false) post →
   _default_provider (register_all init regs) = Some n)
∧ (∀ d, _default_provider (register_all init regs) = Some d →
        is_Some (_providers (register_all init regs) !! d)).
Proof.
split; [|split; [|split]].
- split; [apply register_all_default_none|by intros ->].
- intros -> Hpost. simpl. apply register_all_keeps_default; [|done].
  simpl. by rewrite orb_true_r.
- intros -> Hpost. rewrite register_all_app. simpl.
  by apply register_all_keeps_default.
- apply register_all_default_registered. by intros d.
Qed.

(** X17.  The handler registered last under a name is the one that answers
  requests naming it: registering a name again replaces its handler, and
  registrations under other names do not change it. *)
Theorem latest_registration_answers (pre post : list Registration) (n : string) h
  (b : bool) (prompt : string) (kwargs : Options) (w : World) :
n ≠ "" → n ∉ post.*1.*1 →
complete (register_all init (pre ++ (n, h, b) :: post)) prompt (Some n) kwargs w
= answered_by n h (register_all init (pre ++ (n, h, b) :: post)) prompt kwargs w.
Proof.
intros Hne Hpost. apply complete_resolved; [|done|].
- by apply chosen_name_named.
- rewrite register_all_app. simpl. apply register_all_keeps_handler; [|done].
  simpl. apply lookup_insert_eq.
Qed.

(** X18.  Once a provider is registered, a request that names no provider is
  answered by the default provider's handler and never by the mock,
  provided no provider was registered under the empty name; on a fresh
  gateway every request is answered by the mock. *)
Theorem unnamed_request_uses_default (regs : list Registration) (prompt : string)
  (provider : option string) (kwargs : Options) (w : World) :
complete (init (Options := Options) (World := World)) prompt provider kwargs w
= answered_by_mock init prompt w
∧ (regs ≠ [] → Forall (λ r : Registration, r.1.1 ≠ "") regs →
   ∃ d h, _default_provider (register_all init regs) = Some d
          ∧ _providers (register_all init regs) !! d = Some h
          ∧ complete (register_all init regs) prompt None kwargs w
            = answered_by d h (register_all init regs) prompt kwargs w).
Proof.
split.
- apply complete_unresolved. intros name _ _. apply lookup_empty.
- intros Hne Hnames.
  destruct (_default_provider (register_all init regs)) as [d|] eqn:Hd.
  + assert (is_Some (_providers (register_all init regs) !! d)) as [h Hh]
      by (apply register_all_default_registered; [by intros ?|done]).
    exists d, h. split; [done|]. split; [done|].
    apply complete_resolved; [done| |done].
    intros ->. by apply (register_all_default_nonempty regs init Hnames).
  + exfalso. apply Hne. by apply register_all_default_none.
Qed.

End Providers.

(** A second backend, to tell handlers apart. *)
Definition ping : LLMCore.Handler unit unit := λ _ _ w, (Py.Ok "ping", w).

Lemma default_provider_after_registrations_witness :
  LLMCore._default_provider
    (register_all LLMCore.init [("a", pong, false); ("b", ping, true); ("c", pong, false)])
  = Some "b".
Proof.
  apply (proj1 (proj2 (proj2
           (default_provider_after_registrations
              [("a", pong, false); ("b", ping, true); ("c", pong, false)]
              [("a", pong, false)] [("c", pong, false)] "b" ping true)))).
  - reflexivity.
  - repeat constructor.
Defined.

Lemma latest_registration_answers_witness :
  LLMCore.complete
    (register_all LLMCore.init
       ([("backend", pong, false)] ++ ("backend", ping, false) :: [("other", pong, true)]))
    "Hello, world!" (Some "backend") () ()
  = answered_by "backend" ping
      (register_all LLMCore.init
         ([("backend", pong, false)] ++ ("backend", ping, false) :: [("other", pong, true)]))
      "Hello, world!" () ().
Proof.
  apply (latest_registration_answers [("backend", pong, false)] [("other", pong, true)]
           "backend" ping false "Hello, world!" () ()).
  - discriminate.
  - intros Hin. apply list_elem_of_singleton in Hin. discriminate Hin.
Defined.

Lemma unnamed_request_uses_default_witness :
  ∃ d h,
    LLMCore._default_provider (register_all LLMCore.init [("backend", pong, false)]) = Some d
    ∧ LLMCore._providers (register_all LLMCore.init [("backend", pong, false)]) !! d = Some h
    ∧ LLMCore.complete (register_all LLMCore.init [("backend", pong, false)])
        "Hello, world!" None () ()
      = answered_by d h (register_all LLMCore.init [("backend", pong, false)])
          "Hello, world!" () ().
Proof.
  apply (proj2 (unnamed_request_uses_default [("backend", pong, false)] "Hello, world!"
                  None () ())).
  - discriminate.
  - repeat constructor. discriminate.
Defined.

Lemma prefix_length (n : nat) (s : string) :
  String.length (Py.prefix n s) = Nat.min n (String.length s).
Proof.
  revert s. induction n as [|n IH]; intros [|c s]; simpl; try done. by rewrite IH.
Qed.

Lemma prefix_whole (n : nat) (s : string) : (String.length s ≤ n)%nat → Py.prefix n s = s.
Proof.
  revert s. induction n as [|n IH]; intros [|c s] Hlen; simpl in *; try done; [lia|].
  rewrite IH; [done|lia].
Qed.

(** X19.  The mock answer is bounded: it echoes a prompt of at most 80
    characters whole, cuts a longer one after 80 characters and marks the cut
    with "...", so that the answer never has more than 103 characters. *)
Theorem mock_response_bounded (prompt : string) :
  (String.length (LLMCore.mock_response prompt) ≤ 103)%nat
  ∧ ((String.length prompt ≤ 80)%nat →
     LLMCore.mock_response prompt = "[mock response to: " +:+ prompt +:+ "]")
  ∧ ((80 < String.length prompt)%nat →
     LLMCore.mock_response prompt = "[mock response to: " +:+ Py.prefix 80 prompt +:+ "...]"
     ∧ String.length (LLMCore.mock_response prompt) = 103%nat).
Proof.
  unfold LLMCore.mock_response.
  destruct (80 <? String.length prompt)%nat eqn:Hlong.
  - apply Nat.ltb_lt in Hlong.
    assert (String.length ("[mock response to: " +:+ Py.prefix 80 prompt +:+ "..." +:+ "]")
            = 103%nat) as Hlen.
    { rewrite !str_app_length, prefix_length, Nat.min_l by lia. reflexivity. }
    split; [lia|]. split; [lia|]. by intros _.
  - apply Nat.ltb_ge in Hlong. rewrite prefix_whole by done.
    split; [|split; [done|lia]].
    rewrite !str_app_length.
    change (String.length "[mock response to: ") with 19%nat.
    change (String.length "") with 0%nat. change (String.length "]") with 1%nat. lia.
Qed.

Lemma mock_response_bounded_witness :
  LLMCore.mock_response "Hello, world!" = "[mock response to: " +:+ "Hello, world!" +:+ "]".
Proof.
  apply (proj1 (proj2 (mock_response_bounded "Hello, world!"))). simpl. lia.
Defined.

(** ** ToolAccessManager: decisions, assignments and the audit trail *)

Section Access.
Import ToolAccessManager.

#[local] Instance str_le_total : Total str_le.
Proof. intros a b. apply String.leb_total. Qed.

(** The decision of [check_access], read off the two dictionaries. *)
Lemma check_access_decision self now p tl :
(check_access self now p tl).1 = true
↔ ∃ r, _principals self !! p = Some r ∧ tl ∈ granted self r.
Proof.
unfold check_access, role_grants, granted. simpl.
destruct (_principals self !! p) as [r|]; split.
- intros Hd. exists r. split; [done|]. by apply bool_decide_eq_true in Hd.
- intros (r' & [= <-] & Hin). by apply bool_decide_eq_true.
- done.
- by intros (r & Hr & _).
Qed.

(** X20.  [permitted_tools] and [check_access] agree: a tool is listed for a
  principal exactly when the check for it is granted; the list is in
  ascending string order and names no tool twice. *)
Theorem permitted_tools_agree_with_check (self : t) (now p tl : string) :
(tl ∈ permitted_tools self p ↔ (check_access self now p tl).1 = true)
∧ Sorted str_le (permitted_tools self p)
∧ NoDup (permitted_tools self p).
Proof.
rewrite check_access_decision. unfold permitted_tools, granted.
destruct (_principals self !! p) as [r|].
- split; [|split].
  + rewrite merge_sort_Permutation, elem_of_elements. split.
    * intros Hin. by exists r.
    * by intros (r' & [= <-] & Hin).
  + apply Sorted_merge_sort. apply _.
  + rewrite merge_sort_Permutation. apply NoDup_elements.
- rewrite elements_empty. split; [|split; [constructor|constructor]].
  split; [intros Hin; by apply elem_of_nil in Hin|by intros (r & Hr & _)].
Qed.

(** A principal has one role and the last assignment wins: after
  [assign_role] the check is decided by the tools of the new role alone,
  whatever role the principal had, and the checks for every other
  principal are decided as before. *)
Theorem assign_role_last_wins (self : t) (now p p1 r0 r tl : string) :
((check_access (assign_role (assign_role self p r0) p r) now p tl).1 = true
 ↔ tl ∈ granted self r)
∧ (p1 ≠ p →
   (check_access (assign_role self p r) now p1 tl).1 = (check_access self now p1 tl).1)
∧ _roles (assign_role self p r) = _roles self.
Proof.
split; [|split; [|done]].
- rewrite check_access_decision. simpl. rewrite lookup_insert_eq. unfold granted. simpl.
  split; [by intros (r' & [= <-] & Hin)|]. intros Hin. by exists r.
- intros Hne. unfold check_access, role_grants. simpl. by rewrite lookup_insert_ne.
Qed.

(** X21.  [define_role] only ever grants: after it a check is granted exactly
  when it was granted before or the principal holds the role and the tool
  is among those listed; so no check that was granted is refused after. *)
Theorem define_role_only_grants (self : t) (now p role tl : string) (tools : list string) :
((check_access (define_role self role tools) now p tl).1 = true
 ↔ (check_access self now p tl).1 = true
   ∨ (_principals self !! p = Some role ∧ tl ∈ tools))
∧ ((check_access self now p tl).1 = true →
   (check_access (define_role self role tools) now p tl).1 = true).
Proof.
assert ((check_access (define_role self role tools) now p tl).1 = true
        ↔ (check_access self now p tl).1 = true
          ∨ (_principals self !! p = Some role ∧ tl ∈ tools)) as Hiff.
{ rewrite !check_access_decision. unfold granted. simpl. split.
  - intros (r & Hr & Hin). destruct (decide (role = r)) as [->|Hne].
    + rewrite lookup_insert_eq in Hin. simpl in Hin.
      apply elem_of_union in Hin as [Hin|Hin].
      * left. by exists r.
      * right. split; [done|]. by apply elem_of_list_to_set in Hin.
    + rewrite lookup_insert_ne in Hin by done. left. by exists r.
  - intros [(r & Hr & Hin)|[Hr Hin]].
    + exists r. split; [done|]. destruct (decide (role = r)) as [->|Hne].
      * rewrite lookup_insert_eq. simpl. apply elem_of_union. by left.
      * by rewrite lookup_insert_ne.
    + exists role. split; [done|]. rewrite lookup_insert_eq. simpl.
      apply elem_of_union. right. by apply elem_of_list_to_set. }
split; [exact Hiff|]. intros Hbefore. apply Hiff. by left.
Qed.

(** The calls on the manager. *)
Inductive AccessCall :=
| DefineRole (role : string) (tools : list string)
| AssignRole (principal role : string)
| CheckAccess (now principal tool : string).

(** Runs the calls in order and collects what the checks return. *)
Fixpoint run_access (self : t) (calls : list AccessCall) : list bool * t :=
match calls with
| [] => ([], self)
| DefineRole r tools :: rest => run_access (define_role self r tools) rest
| AssignRole p r :: rest => run_access (assign_role self p r) rest
| CheckAccess now p tl :: rest =>
    let '(b, self1) := check_access self now p tl in
    let '(bs, self2) := run_access self1 rest in
    (b :: bs, self2)
end.

(** The checks among the calls: time stamp, principal and tool. *)
Definition checks (calls : list AccessCall) : list (string * string * string) :=
omap (λ c, match c with
           | CheckAccess now p tl => Some (now, p, tl)
           | _ => None
           end) calls.

(** X22.  The audit log is append-only and complete: whatever roles are
  defined or assigned in between, a run of calls leaves the earlier log as
  it was and adds one entry per check, in order, each with the time stamp,
  principal and tool of its check and the decision the check returned. *)
Theorem audit_log_records_every_check (self : t) (calls : list AccessCall) :
∃ entries,
  audit_log (run_access self calls).2 = audit_log self ++ entries
  ∧ map (λ e, (timestamp e, principal e, tool e)) entries = checks calls
  ∧ map allowed entries = (run_access self calls).1.
Proof.
revert self. induction calls as [|[r tools|p r|now p tl] rest IH]; intros self; simpl.
- exists []. by rewrite app_nil_r.
- destruct (IH (define_role self r tools)) as (entries & Hlog & Hc & Ha). by exists entries.
- destruct (IH (assign_role self p r)) as (entries & Hlog & Hc & Ha). by exists entries.
- destruct (IH (check_access self now p tl).2) as (entries & Hlog & Hc & Ha).
  destruct (run_access (check_access self now p tl).2 rest) as [bs self2] eqn:Hrest.
  unfold check_access in *. simpl in *. rewrite Hrest. simpl.
  eexists (_ :: entries). rewrite Hlog, <- app_assoc. simpl.
  split; [done|]. unfold checks in *. simpl. by rewrite Hc, Ha.
Qed.

End Access.

Lemma define_role_only_grants_witness :
  (ToolAccessManager.check_access
     (ToolAccessManager.define_role analyst_manager "analyst" ["file_write"])
     "t" "agent_a" "policy_analyze").1 = true.
Proof.
  apply (proj2 (define_role_only_grants analyst_manager "t" "agent_a" "analyst"
                  "policy_analyze" ["file_write"])).
  vm_compute. reflexivity.
Defined.

Lemma assign_role_last_wins_witness :
  (ToolAccessManager.check_access
     (ToolAccessManager.assign_role analyst_manager "agent_a" "guest") "t" "agent_b"
     "policy_analyze").1
  = (ToolAccessManager.check_access analyst_manager "t" "agent_b" "policy_analyze").1.
Proof.
  apply (proj1 (proj2 (assign_role_last_wins analyst_manager "t" "agent_a" "agent_b"
                         "analyst" "guest" "policy_analyze"))).
  discriminate.
Defined.

(** ** The scoring heuristics *)

Example sentences_of_two : Scoring.sentences_of "Maybe so. Yes!" = ["maybe so"; " yes"; ""].
Proof. reflexivity. Qed.

Example contains_inside : Scoring.contains "i think" "well, i think so" = true.
Proof. reflexivity. Qed.

Section Heuristics.
Import Scoring.

Lemma ratio_bounds (n d : nat) : (n ≤ d)%nat → (0 <= ratio n d)%Q ∧ (ratio n d <= 1)%Q.
Proof.
intros Hnd. unfold ratio. destruct d as [|d].
- assert (n = 0%nat) as -> by lia. split; by vm_compute.
- assert (0 < inject_Z (Z.of_nat (S d)))%Q as Hpos
    by (unfold Qlt; simpl; lia).
  split.
  + apply Qle_shift_div_l; [done|]. rewrite Qmult_0_l.
    unfold Qle. simpl. lia.
  + apply Qle_shift_div_r; [done|]. rewrite Qmult_1_l.
    unfold Qle. simpl. lia.
Qed.

Lemma ratio_below_one (n d : nat) : (n < d)%nat → (ratio n d < 1)%Q.
Proof.
intros Hnd. unfold ratio.
assert (0 < inject_Z (Z.of_nat d))%Q as Hpos by (unfold Qlt; simpl; lia).
apply Qlt_shift_div_r; [done|]. rewrite Qmult_1_l. unfold Qlt. simpl. lia.
Qed.

Lemma ratio_same (n : nat) : (0 < n)%nat → (ratio n n == 1)%Q.
Proof.
intros Hn. unfold ratio. apply Qmult_inv_r. unfold Qeq. simpl. lia.
Qed.

(** X23.  The relevance score is a similarity of the two token sets: it lies
  between 0 and 1, does not depend on which text is the prompt and which
  the response, and is 1 for a response with the same token set as the
  prompt, in particular for a response identical to the prompt. *)
Theorem relevance_is_similarity (prompt response : string) :
(0 <= _score_relevance prompt response)%Q
∧ (_score_relevance prompt response <= 1)%Q
∧ _score_relevance prompt response = _score_relevance response prompt
∧ (_score_relevance prompt prompt == 1)%Q.
Proof.
unfold _score_relevance.
set (p := list_to_set (VectorStore.tokens prompt) : gset string).
set (r := list_to_set (VectorStore.tokens response) : gset string).
assert (size (p ∩ r) ≤ size (p ∪ r))%nat as Hsize
  by (apply subseteq_size; transitivity p;
        [apply intersection_subseteq_l|apply union_subseteq_l]).
destruct (ratio_bounds _ _ Hsize) as [Hlo Hhi].
split; [|split; [|split]].
- do 2 case_bool_decide; simpl; try done.
- do 2 case_bool_decide; simpl; try done.
- rewrite (comm_L (∩) r p), (comm_L (∪) r p).
  do 2 case_bool_decide; simpl; done.
- case_bool_decide as Hp; simpl; [done|].
  rewrite (idemp_L (∩) p), (idemp_L (∪) p).
  apply ratio_same. destruct (decide (size p = 0%nat)) as [H0|]; [|lia].
  by apply size_empty_inv, leibniz_equiv in H0.
Qed.

Lemma lower_app (a b : string) :
VectorStore.lower (a +:+ b) = VectorStore.lower a +:+ VectorStore.lower b.
Proof.
induction a as [|x a IH]; [done|].
change (String (VectorStore.lower_char x) (VectorStore.lower (a +:+ b))
        = String (VectorStore.lower_char x) (VectorStore.lower a +:+ VectorStore.lower b)).
by f_equal.
Qed.

Lemma lower_stop (c : ascii) : is_stop c = true → VectorStore.lower_char c = c.
Proof.
unfold is_stop, VectorStore.lower_char. intros Hc.
destruct (N_of_ascii c =? 46)%N eqn:H46; [apply N.eqb_eq in H46; by rewrite H46|].
destruct (N_of_ascii c =? 33)%N eqn:H33; [apply N.eqb_eq in H33; by rewrite H33|].
destruct (N_of_ascii c =? 63)%N eqn:H63; [apply N.eqb_eq in H63; by rewrite H63|].
done.
Qed.

(** A text that ends with a separator ends with an empty sentence. *)
Lemma split_from_trailing (c : ascii) (s : string) : ∀ in_run piece,
is_stop c = true →
∃ front, split_from in_run piece (s +:+ String c EmptyString) = front ++ [""].
Proof.
induction s as [|x s IH]; intros in_run piece Hc.
- change (EmptyString +:+ String c EmptyString) with (String c EmptyString).
  simpl. rewrite Hc. destruct in_run; [by exists []|by exists [piece]].
- change (String x s +:+ String c EmptyString) with (String x (s +:+ String c EmptyString)).
  simpl. destruct (is_stop x).
  + destruct (IH true EmptyString Hc) as (front & ->).
    destruct in_run; [by exists front|by exists (piece :: front)].
  + apply IH. done.
Qed.

(** X24.  The hallucination score is a fraction of the sentences, between 0
  and 1; the piece after the last separator counts as a sentence, so a text
  that ends with ".", "!" or "?" has an empty last sentence and scores
  less than 1 however uncertain its wording. *)
Theorem hallucination_is_fraction (text : string) (c : ascii) :
(0 <= _score_hallucination text)%Q
∧ (_score_hallucination text <= 1)%Q
∧ (is_stop c = true → (_score_hallucination (text +:+ String c EmptyString) < 1)%Q).
Proof.
assert (∀ l : list string, (length (filter (λ s, uncertain s = true) l) ≤ length l)%nat)
  as Hfilter by (intros l; apply length_filter).
split; [|split].
- unfold _score_hallucination. destruct (sentences_of text) as [|s l]; [done|].
  apply ratio_bounds, Hfilter.
- unfold _score_hallucination. destruct (sentences_of text) as [|s l]; [done|].
  apply ratio_bounds, Hfilter.
- intros Hc. unfold _score_hallucination, sentences_of.
  rewrite lower_app.
  change (VectorStore.lower (String c EmptyString))
    with (String (VectorStore.lower_char c) EmptyString).
  rewrite (lower_stop c Hc).
  destruct (split_from_trailing c (VectorStore.lower text) false EmptyString Hc)
    as (front & ->).
  destruct (front ++ [""]) as [|s l] eqn:Hl; [by destruct front|]. rewrite <- Hl.
  apply ratio_below_one. rewrite filter_app, !length_app.
  change (filter (λ s0, uncertain s0 = true) [""]) with (@nil string).
  pose proof (Hfilter front). simpl. lia.
Qed.

End Heuristics.

Lemma hallucination_is_fraction_witness :
  (Scoring._score_hallucination ("I think maybe" +:+ String "."%char EmptyString) < 1)%Q.
Proof.
  apply (proj2 (proj2 (hallucination_is_fraction "I think maybe" "."%char))).
  reflexivity.
Defined.

(** ** VectorStore: the indexed documents *)

Section Index.
Import VectorStore.
Context {Any : Type} (arith : Arith).
Implicit Types (self : t Any) (h : Hit Any).

Lemma search_sublist self query top_k :
∃ ranking, ranking ≡ₚ scored arith self query ∧ search arith self query top_k `sublist_of` ranking.
Proof.
exists (Py.sorted_reverse PrimFloat.ltb score (scored arith self query)).
split; [apply sorted_reverse_perm|]. apply sublist_take.
Qed.

Lemma search_elem self query top_k h :
h ∈ search arith self query top_k → h ∈ scored arith self query.
Proof.
destruct (search_sublist self query top_k) as (ranking & Hperm & Hsub).
intros Hin. rewrite <- Hperm. by eapply elem_of_sublist.
Qed.

Lemma dict_del_elem {V} (d : list (string * V)) k r :
NoDup d.*1 → r ∈ dict_del d k ↔ r ∈ d ∧ r.1 ≠ k.
Proof.
induction d as [|[k0 v0] rest IH]; csimpl; intros Hnd.
- split; [intros Hin; by apply elem_of_nil in Hin|by intros [Hin _]].
- apply NoDup_cons in Hnd as [Hk0 Hnd].
  destruct (decide (k0 = k)) as [->|Hne].
  + split.
    * intros Hin. split; [by right|]. intros Hr. apply Hk0.
      apply list_elem_of_fmap. exists r. by rewrite Hr.
    * intros [Hin Hr]. apply elem_of_cons in Hin as [->|Hin]; done.
  + rewrite !elem_of_cons, IH by done. split.
    * intros [->|[Hin Hr]]; [split; [by left|done]|split; [by right|done]].
    * intros [[->|Hin] Hr]; [by left|right; done].
Qed.

(** X25.  In every store reached from the empty one the ids are unique: a
  search never lists a document twice, every hit is an indexed document,
  and for [top_k >= 0] the result has [top_k] hits or, when fewer documents
  are indexed, one hit per document. *)
Theorem search_lists_each_document_once (calls : list (Call Any)) (query : string)
  (top_k : Z) :
let self := foldl (step arith) init calls in
NoDup (map id (search arith self query top_k))
∧ (∀ h, h ∈ search arith self query top_k →
        ∃ d, (id h, d) ∈ _records self ∧ text h = doc_text d
             ∧ metadata h = doc_metadata d)
∧ (0 ≤ top_k →
   length (search arith self query top_k)
   = Nat.min (Z.to_nat top_k) (length (_records self))).
Proof.
intros self.
assert (NoDup (_records self).*1) as Hnd by (apply index_NoDup; constructor).
split; [|split].
- destruct (search_sublist self query top_k) as (ranking & Hperm & Hsub).
  apply (sublist_NoDup _ (map id ranking)).
  + rewrite Hperm, scored_ids. exact Hnd.
  + by apply (fmap_sublist id).
- intros h Hh. apply search_elem in Hh. unfold scored in Hh.
  apply list_elem_of_fmap in Hh as ([k d] & -> & Hr). by exists d.
- intros Hk. unfold search, Py.slice_to. rewrite (proj2 (Z.ltb_ge _ _)) by lia.
  rewrite length_take, (Permutation_length (sorted_reverse_perm _ _ _)).
  unfold scored. by rewrite length_map.
Qed.

(** X26.  [delete] removes a document from the index: in every store reached
  from the empty one it returns true exactly when the id was indexed, no
  later search lists the id, and every other document is still scored as
  before. *)
Theorem search_after_delete (calls : list (Call Any)) (doc_id query : string) (top_k : Z) :
let self := foldl (step arith) init calls in
((delete self doc_id).1 = true ↔ ∃ h, h ∈ scored arith self query ∧ id h = doc_id)
∧ (∀ h, h ∈ search arith (delete self doc_id).2 query top_k → id h ≠ doc_id)
∧ (∀ h, h ∈ scored arith (delete self doc_id).2 query
        ↔ h ∈ scored arith self query ∧ id h ≠ doc_id).
Proof.
intros self.
assert (NoDup (_records self).*1) as Hnd by (apply index_NoDup; constructor).
assert (∀ h, h ∈ scored arith (delete self doc_id).2 query
             ↔ h ∈ scored arith self query ∧ id h ≠ doc_id) as Hrest.
{ intros h. unfold scored, delete. simpl. rewrite !list_elem_of_fmap. split.
  - intros (r & -> & Hr). apply dict_del_elem in Hr as [Hr Hne]; [|done].
    split; [by exists r|done].
  - intros [(r & -> & Hr) Hne]. exists r. split; [done|].
    by apply dict_del_elem. }
split; [|split; [|done]].
- unfold delete. simpl. rewrite bool_decide_eq_true, <- (scored_ids arith self query).
  rewrite list_elem_of_fmap. split.
  + intros (h & -> & Hh). by exists h.
  + intros (h & Hh & <-). by exists h.
- intros h Hh. apply search_elem in Hh. by apply Hrest in Hh as [_ Hne].
Qed.

End Index.

Lemma search_lists_each_document_once_witness :
  length (VectorStore.search VectorStore.plain
            (foldl (VectorStore.step VectorStore.plain) VectorStore.init replaced_first)
            "data" 1)
  = Nat.min (Z.to_nat 1)
      (length (VectorStore._records
                 (foldl (VectorStore.step VectorStore.plain) VectorStore.init replaced_first))).
Proof.
  apply (proj2 (proj2 (search_lists_each_document_once VectorStore.plain replaced_first "data" 1))). lia.
Defined.

(** ** Agent: one run through the kernel *)

Section Runs.
Import Agent.
Context {Any Options World : Type}.
Implicit Types (a : Agent.t) (k : KernelLayer.t Any Options World).

(** The decision of the access check that [run] starts with. *)
Definition admitted a k (now : Stamps) : bool :=
(ToolAccessManager.check_access (KernelLayer.access k) (at_check now) (name a)
   (required_tool a)).1.

(** [run] has used the access manager of [k] for one check and has left the
  scheduler, the memory, the LLM core, the roles and the assignments as
  they were. *)
Definition checked_once a k (now : Stamps) (k1 : KernelLayer.t Any Options World) : Prop :=
KernelLayer.scheduler k1 = KernelLayer.scheduler k
∧ KernelLayer.memory k1 = KernelLayer.memory k
∧ KernelLayer.llm k1 = KernelLayer.llm k
∧ ToolAccessManager._roles (KernelLayer.access k1)
  = ToolAccessManager._roles (KernelLayer.access k)
∧ ToolAccessManager._principals (KernelLayer.access k1)
  = ToolAccessManager._principals (KernelLayer.access k)
∧ ToolAccessManager._audit_log (KernelLayer.access k1)
  = ToolAccessManager._audit_log (KernelLayer.access k)
    ++ [ToolAccessManager.mkAudit (at_check now) (name a) (required_tool a)
          (ToolAccessManager._principals (KernelLayer.access k) !! name a)
          (admitted a k now)].

(** X27.  A run that fails the access check stops there: it returns the
  denial, calls no handler and writes neither context nor evaluation; the
  one trace it leaves is the audit entry of the refused check. *)
Theorem run_denied a k (now : Stamps) (prompt : string) (provider : option string)
  (kwargs : Options) (w : World) :
admitted a k now = false →
∃ k1,
  run a k now prompt provider kwargs w
  = (Py.Ok (Denied (name a)
              ("Access denied: '" +:+ name a +:+ "' cannot use tool '"
               +:+ required_tool a +:+ "'")), k1, w)
  ∧ checked_once a k now k1
  ∧ KernelLayer.context k1 = KernelLayer.context k
  ∧ KernelLayer.evaluation k1 = KernelLayer.evaluation k.
Proof.
intros Hdenied. unfold run.
destruct (ToolAccessManager.check_access _ _ _ _) as [allowed access1] eqn:Hcheck.
assert (allowed = admitted a k now) as Hallowed by (unfold admitted; by rewrite Hcheck).
rewrite Hallowed, Hdenied. simpl.
unfold ToolAccessManager.check_access in Hcheck. injection Hcheck as _ <-.
eexists. split; [done|]. unfold checked_once, admitted. simpl. done.
Qed.

(** The context after the two pushes of a run. *)
Definition after_turn (W : Z) (before : list ContextManager.Entry) (now : Stamps)
  (prompt response_text : string) : list ContextManager.Entry :=
Py.deque_append W
  (Py.deque_append W before (ContextManager.mkEntry "user" prompt (at_user now)))
  (ContextManager.mkEntry "assistant" response_text (at_assistant now)).

(** X28.  A run that passes the access check and whose completion succeeds
  is one turn: the session's window receives the prompt as a "user" entry
  and the response as an "assistant" entry, in this order; the agent gets
  one more evaluation record, without a correctness label; the access
  manager gets one audit entry; the other sessions and the other agents'
  records stay as they were, and the result names the provider that
  answered. *)
Theorem run_is_one_turn a k (now : Stamps) (prompt : string) (provider : option string)
  (kwargs : Options) (w w1 : World) (completion : LLMCore.Completion) :
admitted a k now = true →
0 ≤ ContextManager.window_size (KernelLayer.context k) →
LLMCore.complete (KernelLayer.llm k) prompt provider kwargs w
= (Py.Ok completion, KernelLayer.llm k, w1) →
∃ k1 record,
  run a k now prompt provider kwargs w
  = (Py.Ok (Handled (name a) (LLMCore.response completion) (LLMCore.provider completion)),
     k1, w1)
  ∧ checked_once a k now k1
  ∧ held (KernelLayer.context k1) (session_id a)
    = after_turn (ContextManager.window_size (KernelLayer.context k))
        (held (KernelLayer.context k) (session_id a)) now prompt
        (LLMCore.response completion)
  ∧ (∀ sid, sid ≠ session_id a →
            held (KernelLayer.context k1) sid = held (KernelLayer.context k) sid)
  ∧ EvaluationEngine._records (KernelLayer.evaluation k1) !! name a
    = Some (default [] (EvaluationEngine._records (KernelLayer.evaluation k) !! name a)
            ++ [record])
  ∧ EvaluationEngine.agent record = name a
  ∧ FileStore.dict_get (EvaluationEngine.scores record) "correctness" = Some None
  ∧ (∀ other, other ≠ name a →
              EvaluationEngine._records (KernelLayer.evaluation k1) !! other
              = EvaluationEngine._records (KernelLayer.evaluation k) !! other).
Proof.
intros Hadmitted HW Hcomplete. unfold run.
destruct (ToolAccessManager.check_access _ _ _ _) as [allowed access1] eqn:Hcheck.
assert (allowed = admitted a k now) as Hallowed by (unfold admitted; by rewrite Hcheck).
rewrite Hallowed, Hadmitted. simpl.
unfold ToolAccessManager.check_access in Hcheck. injection Hcheck as _ <-.
destruct (push_held (KernelLayer.context k) (at_user now) (session_id a) "user" prompt HW)
  as (context1 & Hpush1 & Hw1 & Hheld1 & Hother1).
rewrite Hpush1. unfold _handle. simpl. rewrite Hcomplete. simpl.
destruct (push_held context1 (at_assistant now) (session_id a) "assistant"
            (LLMCore.response completion)) as (context2 & Hpush2 & Hw2 & Hheld2 & Hother2);
  [lia|].
rewrite Hpush2. simpl.
eexists _, _. split; [done|]. split.
{ unfold checked_once, admitted. simpl. done. }
simpl. split; [by rewrite Hheld2, Hheld1, Hw1|].
split; [intros sid Hne; by rewrite Hother2, Hother1|].
split; [by rewrite lookup_insert_eq|]. split; [done|]. split; [done|].
intros other Hne. by rewrite lookup_insert_ne.
Qed.

(** X29.  An exception inside a run propagates after the kernel was already
  changed: when the handler raises, the access check is audited and the
  prompt stays in the session's window as a "user" entry without an
  "assistant" entry after it, and no evaluation is recorded; when the
  window size is negative, the first push raises before any handler is
  called. *)
Theorem run_propagates_failure a k (now : Stamps) (prompt : string)
  (provider : option string) (kwargs : Options) (w w1 : World) (e : Py.exn) :
admitted a k now = true →
(0 ≤ ContextManager.window_size (KernelLayer.context k) →
 LLMCore.complete (KernelLayer.llm k) prompt provider kwargs w
 = (Py.Raise e, KernelLayer.llm k, w1) →
 ∃ k1,
   run a k now prompt provider kwargs w = (Py.Raise e, k1, w1)
   ∧ checked_once a k now k1
   ∧ held (KernelLayer.context k1) (session_id a)
     = Py.deque_append (ContextManager.window_size (KernelLayer.context k))
         (held (KernelLayer.context k) (session_id a))
         (ContextManager.mkEntry "user" prompt (at_user now))
   ∧ KernelLayer.evaluation k1 = KernelLayer.evaluation k)
∧ (ContextManager.window_size (KernelLayer.context k) < 0 →
   ContextManager._sessions (KernelLayer.context k) !! session_id a = None →
   ∃ k1,
     run a k now prompt provider kwargs w
     = (Py.Raise (Py.ValueError "maxlen must be non-negative"), k1, w)
     ∧ checked_once a k now k1
     ∧ KernelLayer.context k1 = KernelLayer.context k
     ∧ KernelLayer.evaluation k1 = KernelLayer.evaluation k).
Proof.
intros Hadmitted. split.
- intros HW Hcomplete. unfold run.
  destruct (ToolAccessManager.check_access _ _ _ _) as [allowed access1] eqn:Hcheck.
  assert (allowed = admitted a k now) as Hallowed by (unfold admitted; by rewrite Hcheck).
  rewrite Hallowed, Hadmitted. simpl.
  unfold ToolAccessManager.check_access in Hcheck. injection Hcheck as _ <-.
  destruct (push_held (KernelLayer.context k) (at_user now) (session_id a) "user" prompt HW)
    as (context1 & Hpush1 & Hw1 & Hheld1 & Hother1).
  rewrite Hpush1. unfold _handle. simpl. rewrite Hcomplete. simpl.
  eexists. split; [done|]. split; [|done].
  unfold checked_once, admitted. simpl. done.
- intros HW Hnew. unfold run.
  destruct (ToolAccessManager.check_access _ _ _ _) as [allowed access1] eqn:Hcheck.
  assert (allowed = admitted a k now) as Hallowed by (unfold admitted; by rewrite Hcheck).
  rewrite Hallowed, Hadmitted. simpl.
  unfold ToolAccessManager.check_access in Hcheck. injection Hcheck as _ <-.
  unfold ContextManager.push, ContextManager.session. rewrite Hnew.
  rewrite (proj2 (Z.ltb_lt _ _)) by lia. simpl.
  eexists. split; [done|]. split; [|done].
  unfold checked_once, admitted. simpl. done.
Qed.

End Runs.

(** A kernel as [KernelLayer] builds it, with an operator agent assigned and
    the flaky backend registered; the world counts the backend's calls. *)
Definition demo_kernel : KernelLayer.t unit unit nat :=
  KernelLayer.mk (Scheduler.mk "fifo" [] []) (ContextManager.init 20) MemoryManager.init
    (LLMCore.register_provider LLMCore.init "backend" flaky false)
    (ToolAccessManager.assign_role (KernelLayer.seed_roles ToolAccessManager.init)
       "music_production_agent" "operator")
    EvaluationEngine.init.

Definition demo_agent : Agent.t := Agent.mk "music_production_agent" "session-1" "llm_complete".
Definition demo_stranger : Agent.t := Agent.mk "stranger" "session-2" "llm_complete".
Definition demo_stamps : Agent.Stamps := Agent.mkStamps "t0" "t1" "t2" "t3".

Lemma run_denied_witness :
  ∃ k1,
    Agent.run demo_stranger demo_kernel demo_stamps "Hello" None () 0%nat
    = (Py.Ok (Agent.Denied "stranger"
                ("Access denied: '" +:+ "stranger" +:+ "' cannot use tool '"
                 +:+ "llm_complete" +:+ "'")), k1, 0%nat)
    ∧ checked_once demo_stranger demo_kernel demo_stamps k1
    ∧ KernelLayer.context k1 = KernelLayer.context demo_kernel
    ∧ KernelLayer.evaluation k1 = KernelLayer.evaluation demo_kernel.
Proof.
  apply (run_denied demo_stranger demo_kernel demo_stamps "Hello" None () 0%nat).
  vm_compute. reflexivity.
Defined.

Lemma run_is_one_turn_witness :
  ∃ k1 record,
    Agent.run demo_agent demo_kernel demo_stamps "Hello" None () 1%nat
    = (Py.Ok (Agent.Handled "music_production_agent" "recovered" "backend"), k1, 2%nat)
    ∧ checked_once demo_agent demo_kernel demo_stamps k1
    ∧ held (KernelLayer.context k1) "session-1"
      = after_turn 20 (held (KernelLayer.context demo_kernel) "session-1") demo_stamps
          "Hello" "recovered"
    ∧ (∀ sid, sid ≠ "session-1" →
              held (KernelLayer.context k1) sid = held (KernelLayer.context demo_kernel) sid)
    ∧ EvaluationEngine._records (KernelLayer.evaluation k1) !! "music_production_agent"
      = Some (default []
                (EvaluationEngine._records (KernelLayer.evaluation demo_kernel)
                 !! "music_production_agent") ++ [record])
    ∧ EvaluationEngine.agent record = "music_production_agent"
    ∧ FileStore.dict_get (EvaluationEngine.scores record) "correctness" = Some None
    ∧ (∀ other, other ≠ "music_production_agent" →
                EvaluationEngine._records (KernelLayer.evaluation k1) !! other
                = EvaluationEngine._records (KernelLayer.evaluation demo_kernel) !! other).
Proof.
  apply (run_is_one_turn demo_agent demo_kernel demo_stamps "Hello" None () 1%nat 2%nat
           (LLMCore.mkCompletion "recovered" "backend" 1 1)).
  - vm_compute. reflexivity.
  - simpl. lia.
  - reflexivity.
Defined.

Lemma run_propagates_failure_witness :
  ∃ k1,
    Agent.run demo_agent demo_kernel demo_stamps "Hello" None () 0%nat
    = (Py.Raise (Py.Exception "backend unavailable"), k1, 1%nat)
    ∧ checked_once demo_agent demo_kernel demo_stamps k1
    ∧ held (KernelLayer.context k1) "session-1"
      = Py.deque_append 20 (held (KernelLayer.context demo_kernel) "session-1")
          (ContextManager.mkEntry "user" "Hello" "t1")
    ∧ KernelLayer.evaluation k1 = KernelLayer.evaluation demo_kernel.
Proof.
  apply (proj1 (run_propagates_failure demo_agent demo_kernel demo_stamps "Hello" None ()
                  0%nat 1%nat (Py.Exception "backend unavailable") ltac:(vm_compute; reflexivity))).
  - simpl. lia.
  - reflexivity.
Defined.

(** ** EvaluationEngine: the records of an agent and its correctness average *)

Section Labels.
Import EvaluationEngine.
Variable hallucination : string -> Q.
Variable relevance : string -> string -> Q.

(** One [evaluate] call. *)
Record Evaluate := mkEvaluate {
e_now : string;
e_agent : string;
e_prompt : string;
e_response : string;
e_correct : option bool
}.

Definition evaluate_call (self : t) (c : Evaluate) : t :=
(evaluate hallucination relevance self (e_now c) (e_agent c) (e_prompt c) (e_response c)
   (e_correct c)).2.

(** The record that a call appends. *)
Definition record_of (c : Evaluate) : Evaluation :=
(evaluate hallucination relevance init (e_now c) (e_agent c) (e_prompt c) (e_response c)
   (e_correct c)).1.

(** The ground-truth labels given for an agent, oldest first. *)
Definition labels_of (agent_name : string) (calls : list Evaluate) : list bool :=
omap (λ c, if decide (e_agent c = agent_name) then e_correct c else None) calls.

Definition label_score (b : bool) : Q := if b then 1%Q else 0%Q.

Lemma evaluate_all_records calls : ∀ self agent_name,
default [] (_records (foldl evaluate_call self calls) !! agent_name)
= default [] (_records self !! agent_name)
  ++ map record_of (filter (λ c, e_agent c = agent_name) calls).
Proof.
induction calls as [|c rest IH]; intros self agent_name; simpl.
- by rewrite app_nil_r.
- rewrite IH, filter_cons. unfold evaluate_call, evaluate. simpl.
  destruct (decide (e_agent c = agent_name)) as [<-|Hne].
  + rewrite lookup_insert_eq. simpl. by rewrite <- app_assoc.
  + by rewrite lookup_insert_ne.
Qed.

Lemma recorded_correctness calls agent_name :
recorded "correctness" (map record_of (filter (λ c, e_agent c = agent_name) calls))
= map label_score (labels_of agent_name calls).
Proof.
unfold recorded, labels_of. induction calls as [|c rest IH]; [done|].
rewrite filter_cons. simpl. destruct (decide (e_agent c = agent_name)) as [Heq|Hne].
- simpl. rewrite IH. unfold values_in. simpl.
  destruct (e_correct c) as [[|]|]; simpl; done.
- exact IH.
Qed.

Lemma sum_label_scores labels : ∀ acc : Q,
(foldl Qplus acc (map label_score labels)
 == acc + inject_Z (Z.of_nat (length (filter (λ b, b = true) labels))))%Q.
Proof.
induction labels as [|b rest IH]; intros acc; simpl.
- unfold inject_Z. simpl. ring.
- rewrite IH, filter_cons. destruct b; simpl.
  + rewrite Nat2Z.inj_succ. unfold Z.succ. rewrite inject_Z_plus. ring.
  + ring.
Qed.

(** X30.  The correctness that [aggregate] reports for an agent is the
  fraction of its labelled evaluations that were marked correct; the
  evaluations without a label count neither as correct nor as wrong.  The
  engine keeps one record per evaluation. *)
Theorem correctness_is_fraction_correct (calls : list Evaluate) (agent_name : string) :
let self := foldl evaluate_call init calls in
let labels := labels_of agent_name calls in
(labels ≠ [] →
 ∃ q, aggregate self agent_name !! "correctness" = Some (Some q)
      ∧ (q == Scoring.ratio (length (filter (λ b, b = true) labels)) (length labels))%Q)
∧ length (default [] (_records self !! agent_name))
  = length (filter (λ c, e_agent c = agent_name) calls).
Proof.
intros self labels.
pose proof (evaluate_all_records calls init agent_name) as Hrecords.
fold self in Hrecords. simpl in Hrecords. rewrite lookup_empty in Hrecords.
simpl in Hrecords. split.
- intros Hlabels.
  destruct (_records self !! agent_name) as [[|r rest]|] eqn:Hself; simpl in Hrecords.
  + exfalso. apply Hlabels. unfold labels.
    pose proof (recorded_correctness calls agent_name) as Hrec.
    rewrite <- Hrecords in Hrec. by destruct (labels_of agent_name calls).
  + rewrite (aggregate_lookup self agent_name "correctness" r rest Hself).
    rewrite Hrecords, recorded_correctness. fold labels.
    destruct labels as [|b bs] eqn:Hl; [done|]. rewrite <- Hl.
    destruct (map label_score labels) as [|x xs] eqn:Hmap; [by rewrite Hl in Hmap|].
    unfold mean. eexists. split; [reflexivity|].
    rewrite <- Hmap, sum_label_scores, length_map. unfold Scoring.ratio.
    by rewrite Qplus_0_l.
  + exfalso. apply Hlabels. unfold labels.
    pose proof (recorded_correctness calls agent_name) as Hrec.
    rewrite <- Hrecords in Hrec. by destruct (labels_of agent_name calls).
- by rewrite Hrecords, length_map.
Qed.

End Labels.

(** Three evaluations of one agent: correct, wrong and unlabelled. *)
Definition three_evaluations : list Evaluate :=
  [mkEvaluate "t1" "agent_x" "What is GDPR?" "GDPR is a regulation." (Some true);
   mkEvaluate "t2" "agent_x" "Explain the policy" "I think maybe." (Some false);
   mkEvaluate "t3" "agent_x" "hello world" "hello world" None].

Lemma correctness_is_fraction_correct_witness :
  ∃ q,
    EvaluationEngine.aggregate
      (foldl (evaluate_call Scoring._score_hallucination Scoring._score_relevance)
         EvaluationEngine.init three_evaluations) "agent_x" !! "correctness"
    = Some (Some q)
    ∧ (q == Scoring.ratio
              (length (filter (λ b, b = true) (labels_of "agent_x" three_evaluations)))
              (length (labels_of "agent_x" three_evaluations)))%Q.
Proof.
  apply (proj1 (correctness_is_fraction_correct Scoring._score_hallucination
                  Scoring._score_relevance three_evaluations "agent_x")).
  discriminate.
Defined.
